(** * Invoice / payment matcher: a shallow embedding of [matcher.py]

    The development follows [src/matcher.py]: the name normaliser
    [baseline_normalize_name] and the reconciliation core
    [match_records] (three all-pairs scans, the ranking and
    de-duplication of the candidates, the two unmatched frames and the
    remaining-payments report).

    Modelling choices.
    - A Python [str] is a [string] (a sequence of bytes); case mapping and
      white space are those of the ASCII range.
    - A cell of a frame read with [dtype=str] is a string or NaN ([cell]);
      this holds of the identifier columns too.  A column that the code
      only reads through [row.get] may be absent from the frame
      ([option cell], [None] for an absent column).
    - After [pd.to_numeric] an amount is a 64-bit integer or a binary64
      float ([num]).  Floats are the [spec_float] of the standard library
      with 53 bits of precision: NaN, infinities, signed zeros and
      round-to-nearest-even arithmetic.  Rows produced by [iterrows] hold
      Python numbers (unbounded integers, exact mixed comparisons); rows
      produced by [iloc] hold numpy scalars (integers wrap around at 64
      bits, an integer met with a float is first rounded to a float).
    - A timestamp is a number of nanoseconds since the epoch, or NaT;
      [Timedelta.days] is a floor division.
    - [DataFrame.sort_values] belongs to pandas.  It is a parameter of the
      core, constrained by what every sort does: the result is a
      permutation of the rows, in descending order of the key.  The two
      argsort routines that numpy may run for the default
      [kind='quicksort'] are modelled apart, for arrays they are known
      to handle.
    - [print], [os.makedirs] and [DataFrame.to_csv] are recorded in a
      trace of effects returned next to the value; an exception is a
      result of its own. *)

From Stdlib Require Import List String Ascii Bool PeanoNat ZArith QArith Qabs Lia Lqa.
From Stdlib Require Import Permutation Sorted RelationClasses.
From Stdlib Require Import SpecFloat.
Import ListNotations.
Local Close Scope Q_scope.
Local Open Scope string_scope.

(** ** Python strings *)

Module PyStr.

(** [str.isspace] on the ASCII range: tab, LF, VT, FF, CR, the four
    separators 0x1c-0x1f and the space. *)
Definition isspace (c : ascii) : bool :=
  let n := nat_of_ascii c in
  ((9 <=? n) && (n <=? 13) || (28 <=? n) && (n <=? 32))%nat.

Definition isupper (c : ascii) : bool :=
  let n := nat_of_ascii c in ((65 <=? n) && (n <=? 90))%nat.

Definition lower_char (c : ascii) : ascii :=
  if isupper c then ascii_of_nat (nat_of_ascii c + 32) else c.

(** [s.lower()] *)
Fixpoint lower (s : string) : string :=
  match s with
  | EmptyString => EmptyString
  | String c s' => String (lower_char c) (lower s')
  end.

Fixpoint lstrip (s : string) : string :=
  match s with
  | EmptyString => EmptyString
  | String c s' => if isspace c then lstrip s' else s
  end.

Fixpoint rstrip (s : string) : string :=
  match s with
  | EmptyString => EmptyString
  | String c s' =>
      match rstrip s' with
      | EmptyString => if isspace c then EmptyString else String c EmptyString
      | r => String c r
      end
  end.

(** [s.strip()] *)
Definition strip (s : string) : string := lstrip (rstrip s).

(** [s.replace(old, new)] for a non-empty [old]: the occurrences of [old]
    are found from the left and do not overlap.  [skip] counts the
    characters of a matched occurrence that are still to be passed. *)
Fixpoint replace_from (old new : string) (skip : nat) (s : string) : string :=
  match s with
  | EmptyString => EmptyString
  | String c s' =>
      match skip with
      | S k => replace_from old new k s'
      | O =>
          if prefix old s
          then new ++ replace_from old new (pred (length old)) s'
          else String c (replace_from old new 0 s')
      end
  end.

Definition replace (old new s : string) : string := replace_from old new 0 s.

(** [needle in hay] *)
Fixpoint contains (needle hay : string) : bool :=
  prefix needle hay ||
  match hay with
  | EmptyString => false
  | String _ hay' => contains needle hay'
  end.

(** Helpers of the proofs: first and last character, upper-case test. *)
Definition head_ok (s : string) : Prop :=
  match s with
  | EmptyString => True
  | String c _ => isspace c = false
  end.

Fixpoint last_char (s : string) : option ascii :=
  match s with
  | EmptyString => None
  | String c s' => match last_char s' with None => Some c | r => r end
  end.

Definition last_ok (s : string) : Prop :=
  forall c, last_char s = Some c -> isspace c = false.

Fixpoint has_upper (s : string) : bool :=
  match s with
  | EmptyString => false
  | String c s' => isupper c || has_upper s'
  end.

End PyStr.

(** ** Cells and the name normaliser *)

Inductive cell : Type :=
| Str (s : string)
| NaN.

(** [str(x)] of a cell: a string is itself, the float NaN prints as "nan". *)
Definition str (x : cell) : string :=
  match x with
  | Str s => s
  | NaN => "nan"
  end.

(** [baseline_normalize_name]; the argument is what [row.get(col)] gives:
    [None] for an absent column, a cell otherwise.  Anything that is not
    a [str] normalises to the empty string. *)
Definition baseline_normalize_name (name : option cell) : string :=
  match name with
  | Some (Str name) =>
      PyStr.lower
        (PyStr.replace "Ltd." "Ltd"
           (PyStr.replace "Limited" "Ltd"
              (PyStr.replace "Pvt. Ltd" "Pvt Ltd"
                 (PyStr.replace "Private Limited" "Pvt Ltd"
                    (PyStr.strip name)))))
  | _ => ""
  end.

(** [a == b] on two cells: NaN differs from everything, itself included. *)
Definition cell_eqb (a b : cell) : bool :=
  match a, b with
  | Str x, Str y => String.eqb x y
  | _, _ => false
  end.

(** The identity of two cells as pandas' hash tables see it
    ([drop_duplicates], [isin]): a NaN is the same as another NaN. *)
Definition cell_same (a b : cell) : bool :=
  match a, b with
  | Str x, Str y => String.eqb x y
  | NaN, NaN => true
  | _, _ => false
  end.

(** [row.get(col, default)] *)
Definition get (col : option cell) (default : cell) : cell :=
  match col with
  | Some c => c
  | None => default
  end.

(** ** Numbers *)

(** binary64 *)
Definition f64 : Type := spec_float.

Definition f64_of_Z (z : Z) : f64 := binary_normalize 53 1024 z 0 false.
Definition f64_sub (x y : f64) : f64 := SFsub 53 1024 x y.
Definition f64_div (x y : f64) : f64 := SFdiv 53 1024 x y.
Definition f64_abs (x : f64) : f64 := SFabs x.
Definition f64_lt (x y : f64) : bool := SFltb x y.

(** The float nearest to the decimal fraction [n / d]: what a literal
    such as [1e-2], or [pd.to_numeric] on a short decimal string, gives. *)
Definition decimal (n d : Z) : f64 := f64_div (f64_of_Z n) (f64_of_Z d).

Definition f64_nan : f64 := S754_nan.

(** The value of a cell of an amount column: int64 or float64. *)
Inductive num : Type :=
| Int (z : Z)
| Float (f : f64).

(** The real value [(-1)^s * m * 2^e] of a finite float against an
    integer, without rounding: Python compares an [int] and a [float]
    exactly. *)
Definition Z_compare_f64 (z : Z) (f : f64) : option comparison :=
  match f with
  | S754_nan => None
  | S754_infinity s => Some (if s then Gt else Lt)
  | S754_zero _ => Some (z ?= 0)%Z
  | S754_finite s m e =>
      let v := cond_Zopp s (Zpos m) in
      Some (if (0 <=? e)%Z then (z ?= v * 2 ^ e)%Z else (z * 2 ^ (- e) ?= v)%Z)
  end.

Module Py.
(** Arithmetic of the Python objects found in a row of [iterrows]. *)

Definition sub (x y : num) : num :=
  match x, y with
  | Int a, Int b => Int (a - b)
  | Int a, Float g => Float (f64_sub (f64_of_Z a) g)
  | Float f, Int b => Float (f64_sub f (f64_of_Z b))
  | Float f, Float g => Float (f64_sub f g)
  end.

Definition abs (x : num) : num :=
  match x with
  | Int a => Int (Z.abs a)
  | Float f => Float (f64_abs f)
  end.

Definition lt (x y : num) : bool :=
  match x, y with
  | Int a, Int b => (a <? b)%Z
  | Int a, Float g =>
      match Z_compare_f64 a g with Some Lt => true | _ => false end
  | Float f, Int b =>
      match Z_compare_f64 b f with Some Gt => true | _ => false end
  | Float f, Float g => f64_lt f g
  end.

Definition gt (x y : num) : bool := lt y x.

End Py.

Module Np.
(** Arithmetic of the numpy scalars found in a row of [iloc]. *)

(** Two's complement on 64 bits. *)
Definition wrap64 (z : Z) : Z := ((z + 2 ^ 63) mod 2 ^ 64 - 2 ^ 63)%Z.

Definition sub (x y : num) : num :=
  match x, y with
  | Int a, Int b => Int (wrap64 (a - b))
  | Int a, Float g => Float (f64_sub (f64_of_Z a) g)
  | Float f, Int b => Float (f64_sub f (f64_of_Z b))
  | Float f, Float g => Float (f64_sub f g)
  end.

Definition lt (x y : num) : bool :=
  match x, y with
  | Int a, Int b => (a <? b)%Z
  | Int a, Float g => f64_lt (f64_of_Z a) g
  | Float f, Int b => f64_lt f (f64_of_Z b)
  | Float f, Float g => f64_lt f g
  end.

End Np.

(** ** Timestamps *)

(** A timestamp, in nanoseconds since 1970-01-01; [None] is NaT. *)
Definition timestamp : Type := option Z.

Definition ns_per_day : Z := 86400000000000.

(** [(a - b).days]: the whole days of the difference, rounded down; NaN
    as soon as one side is NaT. *)
Definition days_between (a b : timestamp) : option Z :=
  match a, b with
  | Some x, Some y => Some ((x - y) / ns_per_day)%Z
  | _, _ => None
  end.

(** [abs(d) <= n] for a day count that may be NaN. *)
Definition abs_days_le (d : option Z) (n : Z) : bool :=
  match d with
  | Some d => (Z.abs d <=? n)%Z
  | None => false
  end.

(** Day number of a civil date (proleptic Gregorian calendar, day 0 is
    1970-01-01), used to write the dates of the scenarios. *)
Definition days_from_civil (y m d : Z) : Z :=
  let y' := (if m <=? 2 then y - 1 else y)%Z in
  let era := (y' / 400)%Z in
  let yoe := (y' - era * 400)%Z in
  let mp := ((m + 9) mod 12)%Z in
  let doy := ((153 * mp + 2) / 5 + d - 1)%Z in
  let doe := (yoe * 365 + yoe / 4 - yoe / 100 + doy)%Z in
  (era * 146097 + doe - 719468)%Z.

(** Midnight of a civil date. *)
Definition midnight (y m d : Z) : timestamp :=
  Some (days_from_civil y m d * ns_per_day)%Z.

(** ** Rows *)

Module Inv.
(** [customer_name] is read with [inv["customer_name"]] when a remainder
    record is built: the column is part of the frame. *)
Record t : Type := mk {
  invoice_id : cell;
  customer_name : cell;
  amount : num;
  currency : cell;
  date : timestamp
}.
End Inv.

Module Pay.
(** [payer_name], [memo] and [reference_number] are read through
    [row.get] only: the column may be absent. *)
Record t : Type := mk {
  payment_id : cell;
  payer_name : option cell;
  memo : option cell;
  reference_number : option cell;
  amount : num;
  currency : cell;
  date : timestamp
}.
End Pay.

(** A row of [matches]. *)
Record Match : Type := mkMatch {
  payment_id : cell;
  invoice_id : cell;
  confidence : Q;
  rationale : string
}.

(** A row of [remaining_records]. *)
Record Remainder : Type := mkRemainder {
  r_invoice_id : cell;
  r_customer_name : cell;
  r_invoice_amount : num;
  r_payment_id : cell;
  r_payment_amount : num;
  remaining_amount : num;
  r_currency : cell
}.

(** ** The three scans *)

Definition window_days : Z := 7.

(** [1e-2] *)
Definition tolerance : num := Float (decimal 1 100).

Definition memo_text (pay : Pay.t) : string :=
  str (get (Pay.memo pay) (Str "")) ++ " " ++
  str (get (Pay.reference_number pay) (Str "")).

(** Direct match by invoice_id in memo/reference: the body of the inner
    loop, for one payment and one invoice. *)
Definition direct_pair (pay : Pay.t) (inv : Inv.t) : option Match :=
  if PyStr.contains (str (Inv.invoice_id inv)) (memo_text pay)
  then Some (mkMatch (Pay.payment_id pay) (Inv.invoice_id inv) 1
               "Direct invoice_id found in memo/reference")
  else None.

(** Match by exact amount and near-date. *)
Definition amount_date_pair (pay : Pay.t) (inv : Inv.t) : option Match :=
  if cell_eqb (Inv.currency inv) (Pay.currency pay)
     && abs_days_le (days_between (Pay.date pay) (Inv.date inv)) window_days
     && Py.lt (Py.abs (Py.sub (Inv.amount inv) (Pay.amount pay))) tolerance
  then Some (mkMatch (Pay.payment_id pay) (Inv.invoice_id inv) (8 # 10)
               "Exact amount and near-date (±7 days)")
  else None.

(** Name normalization and amount logic. *)
Definition name_amount_pair (pay : Pay.t) (inv : Inv.t) : option Match :=
  let pay_name := baseline_normalize_name (Pay.payer_name pay) in
  let inv_name := baseline_normalize_name (Some (Inv.customer_name inv)) in
  if String.eqb pay_name inv_name then
    let amount_diff := Py.sub (Pay.amount pay) (Inv.amount inv) in
    if Py.lt (Py.abs amount_diff) tolerance then
      Some (mkMatch (Pay.payment_id pay) (Inv.invoice_id inv) (7 # 10)
              "Name-normalized and amount match")
    else if Py.lt (Pay.amount pay) (Inv.amount inv) then
      Some (mkMatch (Pay.payment_id pay) (Inv.invoice_id inv) (5 # 10)
              "Partial payment - lower amount")
    else if Py.gt (Pay.amount pay) (Inv.amount inv) then
      Some (mkMatch (Pay.payment_id pay) (Inv.invoice_id inv) (4 # 10)
              "Overpayment - higher amount")
    else None
  else None.

Definition emit (m : option Match) : list Match :=
  match m with
  | Some m => [m]
  | None => []
  end.

(** One all-pairs scan: payments in the outer loop, invoices in the
    inner one, the emitted rows appended in that order. *)
Definition scan (body : Pay.t -> Inv.t -> option Match)
    (invoices : list Inv.t) (payments : list Pay.t) : list Match :=
  flat_map (fun pay => flat_map (fun inv => emit (body pay inv)) invoices) payments.

(** The list [matches] after the three loops. *)
Definition candidates (invoices : list Inv.t) (payments : list Pay.t) : list Match :=
  scan direct_pair invoices payments ++
  scan amount_date_pair invoices payments ++
  scan name_amount_pair invoices payments.

(** ** Ranking and de-duplication *)

Definition isin (x : cell) (ids : list cell) : bool :=
  existsb (cell_same x) ids.

(** [drop_duplicates(subset=["payment_id"], keep="first")]; [seen] holds
    the payment ids of the rows already kept. *)
Fixpoint drop_duplicates_from (seen : list cell) (rows : list Match) : list Match :=
  match rows with
  | [] => []
  | row :: rest =>
      if isin (payment_id row) seen
      then drop_duplicates_from seen rest
      else row :: drop_duplicates_from (payment_id row :: seen) rest
  end.

Definition drop_duplicates (rows : list Match) : list Match :=
  drop_duplicates_from [] rows.

(** ** Effects and exceptions *)

Inductive effect : Type :=
| MakeDirs (path : string)
| ToCsv (path : string) (rows : list Remainder)
| Print (msg : string).

Inductive exn : Type :=
| IndexError.

Inductive result (A : Type) : Type :=
| Ok (a : A)
| Raise (e : exn).
Arguments Ok {A} a.
Arguments Raise {A} e.

Definition bind {A B : Type} (r : result A) (k : A -> result B) : result B :=
  match r with
  | Ok a => k a
  | Raise e => Raise e
  end.

Notation "x <- r ;; k" := (bind r (fun x => k))
  (at level 61, r at next level, right associativity).

(** [frame.iloc[0]] *)
Definition iloc0 {A : Type} (rows : list A) : result A :=
  match rows with
  | [] => Raise IndexError
  | row :: _ => Ok row
  end.

(** [payments[payments["payment_id"] == id]] *)
Definition payments_with_id (payments : list Pay.t) (id : cell) : list Pay.t :=
  filter (fun p => cell_eqb (Pay.payment_id p) id) payments.

(** [invoices[invoices["invoice_id"] == id]] *)
Definition invoices_with_id (invoices : list Inv.t) (id : cell) : list Inv.t :=
  filter (fun i => cell_eqb (Inv.invoice_id i) id) invoices.

Definition remaining_record (pay : Pay.t) (inv : Inv.t) : Remainder :=
  mkRemainder (Inv.invoice_id inv) (Inv.customer_name inv) (Inv.amount inv)
    (Pay.payment_id pay) (Pay.amount pay)
    (Np.sub (Inv.amount inv) (Pay.amount pay)) (Inv.currency inv).

(** The loop over [matches_df] that fills [remaining_records]. *)
Fixpoint remaining_records (invoices : list Inv.t) (payments : list Pay.t)
    (rows : list Match) : result (list Remainder) :=
  match rows with
  | [] => Ok []
  | row :: rest =>
      pay <- iloc0 (payments_with_id payments (payment_id row)) ;;
      inv <- iloc0 (invoices_with_id invoices (invoice_id row)) ;;
      recs <- remaining_records invoices payments rest ;;
      Ok (if Np.lt (Pay.amount pay) (Inv.amount inv)
          then remaining_record pay inv :: recs
          else recs)
  end.

Definition newline : string := String (ascii_of_nat 10) EmptyString.

Definition msg_saved : string :=
  newline ++ "💰 Remaining payments saved to: out/remaining_payments.csv".

Definition msg_none : string :=
  newline ++ "✅ No remaining payments found (all invoices fully paid).".

(** What the end of [match_records] does with [remaining_df]. *)
Definition report (recs : list Remainder) : list effect :=
  match recs with
  | [] => [Print msg_none]
  | _ => [MakeDirs "out"; ToCsv "out/remaining_payments.csv" recs; Print msg_saved]
  end.

(** ** The core *)

Section Core.

(** [rows.sort_values("confidence", ascending=False)] *)
Variable sort_values : list Match -> list Match.

(** [matches_df] after the sort and the de-duplication. *)
Definition final_matches (matches : list Match) : list Match :=
  match matches with
  | [] => []
  | _ => drop_duplicates (sort_values matches)
  end.

(** [match_records]: the returned triple and the trace of effects, or
    the exception that comes out of it. *)
Definition match_records (invoices : list Inv.t) (payments : list Pay.t)
  : result ((list Match * list Pay.t * list Inv.t) * list effect) :=
  let matches := candidates invoices payments in
  let matches_df := final_matches matches in
  let matched_payment_ids := map payment_id matches_df in
  let matched_invoice_ids := map invoice_id matches_df in
  let unmatched_payments :=
    filter (fun p => negb (isin (Pay.payment_id p) matched_payment_ids)) payments in
  let unmatched_invoices :=
    filter (fun i => negb (isin (Inv.invoice_id i) matched_invoice_ids)) invoices in
  recs <- remaining_records invoices payments matches_df ;;
  Ok ((matches_df, unmatched_payments, unmatched_invoices), report recs).

End Core.

(** ** Two sorts that meet the contract of [sort_values]

    Both are insertion sorts in descending order of confidence.  The
    first keeps rows of equal confidence in their original order, the
    second reverses them. *)

Definition Qlt_bool (x y : Q) : bool := negb (Qle_bool y x).

Fixpoint insert_before_equal (row : Match) (sorted : list Match) : list Match :=
  match sorted with
  | [] => [row]
  | r :: rest =>
      if Qlt_bool (confidence row) (confidence r)
      then r :: insert_before_equal row rest
      else row :: sorted
  end.

Definition sort_stable (rows : list Match) : list Match :=
  fold_right insert_before_equal [] rows.

Fixpoint insert_after_equal (row : Match) (sorted : list Match) : list Match :=
  match sorted with
  | [] => [row]
  | r :: rest =>
      if Qle_bool (confidence row) (confidence r)
      then r :: insert_after_equal row rest
      else row :: sorted
  end.

Definition sort_reversing (rows : list Match) : list Match :=
  fold_right insert_after_equal [] rows.

(** ** What pandas and numpy run for [sort_values]

    [sort_values] on one column takes the rows in the order given by
    [nargsort]: for a descending sort it reverses the column, asks numpy
    for an ascending [argsort(kind='quicksort')] and reverses the
    answer.  numpy chooses its argsort when it runs: the generic
    introsort of [npysort/quicksort.cpp], or on x86 processors with
    AVX2 or AVX-512 the sorting networks of x86-simd-sort.  Both are
    written out below as far as they are used here; outside that they
    return [None]. *)

Module Numpy.

Definition key (v : list Q) (i : nat) : Q := nth i v 0%Q.

(** Arrays of indices, addressed by integers as by pointers. *)
Definition at_ (t : list nat) (p : Z) : nat := nth (Z.to_nat p) t 0%nat.

Fixpoint put_nat (t : list nat) (p : nat) (x : nat) : list nat :=
  match t, p with
  | [], _ => []
  | _ :: r, O => x :: r
  | y :: r, S p' => y :: put_nat r p' x
  end.

Definition put (t : list nat) (p : Z) (x : nat) : list nat :=
  put_nat t (Z.to_nat p) x.

(** [INTP_SWAP] of the entries at [p] and [q] *)
Definition swap (t : list nat) (p q : Z) : list nat :=
  put (put t p (at_ t q)) q (at_ t p).

Section Introsort.

Variable v : list Q.

(** the key at entry [p] is less than the key at entry [q] *)
Definition less_at (t : list nat) (p q : Z) : bool :=
  Qlt_bool (key v (at_ t p)) (key v (at_ t q)).

(** [do ++pi while] the key at [pi] is less than [vp] *)
Fixpoint scan_up (fuel : nat) (t : list nat) (vp : Q) (pi : Z) : option Z :=
  match fuel with
  | O => None
  | S fuel =>
      let pi := (pi + 1)%Z in
      if Qlt_bool (key v (at_ t pi)) vp then scan_up fuel t vp pi else Some pi
  end.

(** [do --pj while] [vp] is less than the key at [pj] *)
Fixpoint scan_down (fuel : nat) (t : list nat) (vp : Q) (pj : Z) : option Z :=
  match fuel with
  | O => None
  | S fuel =>
      let pj := (pj - 1)%Z in
      if Qlt_bool vp (key v (at_ t pj)) then scan_down fuel t vp pj else Some pj
  end.

(** The [for (;;)] loop of the partition. *)
Fixpoint exchange (fuel : nat) (t : list nat) (vp : Q) (pi pj : Z)
  : option (list nat * Z) :=
  match fuel with
  | O => None
  | S fuel =>
      match scan_up (List.length t) t vp pi with
      | None => None
      | Some pi =>
          match scan_down (List.length t) t vp pj with
          | None => None
          | Some pj =>
              if (pj <=? pi)%Z then Some (t, pi)
              else exchange fuel (swap t pi pj) vp pi pj
          end
      end
  end.

(** The inner [while] loop of the insertion sort: entries move one
    place up as long as [vp] is less than the key before [pj]. *)
Fixpoint shift_right (fuel : nat) (t : list nat) (pl : Z) (vp : Q) (pj : Z)
  : list nat * Z :=
  match fuel with
  | O => (t, pj)
  | S fuel =>
      if (pl <? pj)%Z && Qlt_bool vp (key v (at_ t (pj - 1)%Z))
      then shift_right fuel (put t pj (at_ t (pj - 1)%Z)) pl vp (pj - 1)%Z
      else (t, pj)
  end.

(** [for (pi = pl + 1; pi <= pr; ++pi)]; [count] is the number of
    iterations left. *)
Fixpoint insertion (count : nat) (t : list nat) (pl pi : Z) : list nat :=
  match count with
  | O => t
  | S count =>
      let vi := at_ t pi in
      let '(t, pj) := shift_right (List.length t) t pl (key v vi) pi in
      insertion count (put t pj vi) pl (pi + 1)%Z
  end.

Definition SMALL_QUICKSORT : Z := 16.

(** [while ((pr - pl) > SMALL_QUICKSORT)]: partition around the median
    of three, push the larger part, go on with the smaller one. *)
Fixpoint partitions (fuel : nat) (t : list nat) (pl pr : Z) (cdepth : Z)
    (stack : list (Z * Z * Z)) : option (list nat * Z * Z * list (Z * Z * Z)) :=
  match fuel with
  | O => None
  | S fuel =>
      if (SMALL_QUICKSORT <? pr - pl)%Z then
        let pm := (pl + Z.shiftr (pr - pl) 1)%Z in
        let t := if less_at t pm pl then swap t pm pl else t in
        let t := if less_at t pr pm then swap t pr pm else t in
        let t := if less_at t pm pl then swap t pm pl else t in
        let vp := key v (at_ t pm) in
        let pj := (pr - 1)%Z in
        let t := swap t pm pj in
        match exchange (List.length t) t vp pl pj with
        | None => None
        | Some (t, pi) =>
            let t := swap t pi (pr - 1)%Z in
            let cdepth := (cdepth - 1)%Z in
            if (pi - pl <? pr - pi)%Z
            then partitions fuel t pl (pi - 1)%Z cdepth (((pi + 1)%Z, pr, cdepth) :: stack)
            else partitions fuel t (pi + 1)%Z pr cdepth ((pl, (pi - 1)%Z, cdepth) :: stack)
        end
      else Some (t, pl, pr, stack)
  end.

(** The outer [while (1)].  The heap sort that takes over when the
    depth is used up is not written out. *)
Fixpoint introsort (fuel : nat) (t : list nat) (pl pr : Z) (cdepth : Z)
    (stack : list (Z * Z * Z)) : option (list nat) :=
  match fuel with
  | O => None
  | S fuel =>
      if (cdepth <? 0)%Z then None
      else
        match partitions (List.length t) t pl pr cdepth stack with
        | None => None
        | Some (t, pl, pr, stack) =>
            let t := insertion (Z.to_nat (pr - pl)) t pl (pl + 1)%Z in
            match stack with
            | [] => Some t
            | (pl, pr, cdepth) :: stack => introsort fuel t pl pr cdepth stack
            end
        end
  end.

(** [aquicksort_] on doubles, [tosort] holding 0 .. num-1. *)
Definition aquicksort : option (list nat) :=
  let num := List.length v in
  introsort (S num) (seq 0 num) 0%Z (Z.of_nat num - 1)%Z (Z.log2 (Z.of_nat num) * 2)%Z [].

End Introsort.

(** One vector register of eight 64-bit lanes: a key, or the +infinity
    that pads the lanes beyond the array, and the index that travels
    with it. *)
Definition lane : Type := option Q * nat.

Definition key_le (a b : option Q) : bool :=
  match a, b with
  | _, None => true
  | None, Some _ => false
  | Some x, Some y => Qle_bool x y
  end.

Definition key_min (a b : option Q) : option Q := if key_le a b then a else b.
Definition key_max (a b : option Q) : option Q := if key_le a b then b else a.

Definition key_eq (a b : option Q) : bool := key_le a b && key_le b a.

(** A lane after one compare-and-merge with its partner: the smaller or
    the larger key as the mask says, and the partner's index only if
    the key that stays is not the lane's own. *)
Definition cmp_merge (take_max : bool) (own partner : lane) : lane :=
  let k := if take_max then key_max (fst own) (fst partner)
           else key_min (fst own) (fst partner) in
  (k, if key_eq k (fst own) then snd own else snd partner).

Definition pad : lane := (None, 0%nat).

(** One stage: every lane meets the lane that [partner] names. *)
Definition stage (partner : list nat) (mask : list bool) (reg : list lane)
  : list lane :=
  map (fun i => cmp_merge (nth i mask false) (nth i reg pad)
                  (nth (nth i partner 0%nat) reg pad))
      (seq 0 8).

Definition swap_pairs : list nat := [1; 0; 3; 2; 5; 4; 7; 6]%nat.
Definition mirror_4 : list nat := [3; 2; 1; 0; 7; 6; 5; 4]%nat.
Definition mirror_8 : list nat := [7; 6; 5; 4; 3; 2; 1; 0]%nat.
Definition swap_2 : list nat := [2; 3; 0; 1; 6; 7; 4; 5]%nat.

Definition mask_AA : list bool := [false; true; false; true; false; true; false; true].
Definition mask_CC : list bool := [false; false; true; true; false; false; true; true].
Definition mask_F0 : list bool := [false; false; false; false; true; true; true; true].

(** The bitonic network that sorts one register. *)
Definition sort_register (reg : list lane) : list lane :=
  stage swap_pairs mask_AA
    (stage swap_2 mask_CC
       (stage mirror_8 mask_F0
          (stage swap_pairs mask_AA
             (stage mirror_4 mask_CC
                (stage swap_pairs mask_AA reg))))).

(** The argsort of x86-simd-sort for an array that fits one register. *)
Definition argsort_register (v : list Q) : option (list nat) :=
  let num := List.length v in
  if (num <=? 8)%nat then
    let reg := map (fun i => if (i <? num)%nat then (Some (key v i), i) else pad)
                   (seq 0 8) in
    Some (firstn num (map snd (sort_register reg)))
  else None.

(** [nargsort(items, kind, ascending=False)] on a column without NaN. *)
Definition nargsort_descending (argsort : list Q -> option (list nat))
    (items : list Q) : option (list nat) :=
  let num := List.length items in
  match argsort (rev items) with
  | Some a => Some (rev (map (fun j => (num - 1 - j)%nat) a))
  | None => None
  end.

(** The rows in the order of the indexer. *)
Definition take (rows : list Match) (indexer : list nat) : list Match :=
  flat_map (fun i => match nth_error rows i with Some r => [r] | None => [] end)
    indexer.

Definition sort_values (argsort : list Q -> option (list nat))
    (rows : list Match) : option (list Match) :=
  option_map (take rows) (nargsort_descending argsort (map confidence rows)).

End Numpy.

(** ** Properties of a sort, and what the aggregator retains *)

Definition conf_ge (a b : Match) : Prop := (confidence b <= confidence a)%Q.

Definition has_pid (p : cell) (m : Match) : bool := cell_same (payment_id m) p.

(** The row retained for payment [p]: the first row of the ranked list
    that carries [p]. *)
Definition retained (ranked : list Match) (p : cell) : option Match :=
  find (has_pid p) ranked.

(** The earliest-generated candidate of [p] among those of confidence [q]. *)
Definition earliest_with (matches : list Match) (p : cell) (q : Q) : option Match :=
  find (fun m => has_pid p m && Qeq_bool (confidence m) q) matches.

(** A sort is stable when rows of equal key keep their relative order. *)
Definition stable (sort : list Match -> list Match) : Prop :=
  forall rows q,
    filter (fun m => Qeq_bool (confidence m) q) (sort rows) =
    filter (fun m => Qeq_bool (confidence m) q) rows.

(** A row built from a payment and an invoice. *)
Definition from_pair (pay : Pay.t) (inv : Inv.t) (m : Match) : Prop :=
  payment_id m = Pay.payment_id pay /\ invoice_id m = Inv.invoice_id inv.

(** The rows whose ids are found in the frames. *)
Definition known (invoices : list Inv.t) (payments : list Pay.t) (row : Match) : Prop :=
  exists pay inv, In pay payments /\ In inv invoices /\ from_pair pay inv row.

(** A row one of whose ids is NaN: no [==] finds its payment or its
    invoice again. *)
Definition has_nan_id (row : Match) : bool :=
  match payment_id row, invoice_id row with
  | Str _, Str _ => false
  | _, _ => true
  end.

(** Two amounts of one kind: two integers or two floats. *)
Definition same_kind (a b : num) : Prop :=
  match a, b with
  | Int _, Int _ | Float _, Float _ => True
  | _, _ => False
  end.

(** Two amounts that no comparison orders: one is NaN, or both are the
    same infinity (their difference is NaN). *)
Definition undecided (a b : num) : Prop :=
  a = Float f64_nan \/ b = Float f64_nan \/
  exists s, a = Float (S754_infinity s) /\ b = Float (S754_infinity s).

(** The distinct ids of a column. *)
Fixpoint unique (ids : list cell) : list cell :=
  match ids with
  | [] => []
  | x :: rest => if isin x rest then unique rest else x :: unique rest
  end.

(** ** Scenarios *)

Module Scenario.

Definition usd (n : Z) : num := Float (f64_of_Z n).

(** An invoice id that is a prefix of another one, and a payment whose
    memo quotes the longer id. *)
Definition inv_1 : Inv.t :=
  Inv.mk (Str "INV-1") (Str "Globex Ltd") (usd 100) (Str "USD") (midnight 2024 1 1).

Definition inv_10 : Inv.t :=
  Inv.mk (Str "INV-10") (Str "Initech") (usd 250) (Str "USD") (midnight 2024 1 2).

Definition quoting (id : string) : Pay.t :=
  Pay.mk (Str id) (Some (Str "Hooli")) (Some (Str "paid INV-10")) (Some NaN)
    (usd 250) (Str "USD") (midnight 2024 3 1).

Definition pay_1 : Pay.t := quoting "PAY-1".

Definition direct (pay inv : string) : Match :=
  mkMatch (Str pay) (Str inv) 1 "Direct invoice_id found in memo/reference".

(** Nine payments that all quote INV-10: eighteen direct candidates of
    confidence 1.0, two for each payment. *)
Definition nine_payments : list Pay.t :=
  map quoting
    ["PAY-0"; "PAY-1"; "PAY-2"; "PAY-3"; "PAY-4"; "PAY-5"; "PAY-6"; "PAY-7"; "PAY-8"].

(** Two invoices of one customer for the same amount, a payment that
    settles part of either and a payment that settles either in full;
    no memo, dates two months apart. *)
Definition inv_a1 : Inv.t :=
  Inv.mk (Str "INV-A1") (Str "Acme Ltd") (usd 100) (Str "USD") (midnight 2024 1 1).

Definition inv_a2 : Inv.t :=
  Inv.mk (Str "INV-A2") (Str "Acme Ltd") (usd 100) (Str "USD") (midnight 2024 1 1).

Definition pay_part : Pay.t :=
  Pay.mk (Str "PAY-A") (Some (Str "Acme Ltd")) (Some NaN) (Some NaN)
    (usd 60) (Str "USD") (midnight 2024 3 1).

Definition pay_full : Pay.t :=
  Pay.mk (Str "PAY-B") (Some (Str "Acme Ltd")) (Some NaN) (Some NaN)
    (usd 100) (Str "USD") (midnight 2024 3 1).

Definition by_name (pay inv : string) (confidence : Q) (rationale : string) : Match :=
  mkMatch (Str pay) (Str inv) confidence rationale.

(** A payment half a cent short of the invoice it quotes. *)
Definition pay_short : Pay.t :=
  Pay.mk (Str "PAY-7") (Some (Str "Hooli")) (Some (Str "INV-1")) (Some NaN)
    (Float (decimal 99995 1000)) (Str "USD") (midnight 2024 1 3).

(** A payment row whose memo and reference cells are empty in the CSV
    file (NaN after [read_csv]), and an invoice whose id is "an". *)
Definition inv_an : Inv.t :=
  Inv.mk (Str "an") (Str "Globex Ltd") (usd 100) (Str "USD") (midnight 2024 1 1).

Definition pay_blank : Pay.t :=
  Pay.mk (Str "PAY-9") (Some (Str "Hooli")) (Some NaN) (Some NaN)
    (usd 40) (Str "EUR") (midnight 2024 6 1).

(** An invoice row whose id cell is empty in the CSV file. *)
Definition inv_noid : Inv.t :=
  Inv.mk NaN (Str "Globex Ltd") (usd 100) (Str "USD") (midnight 2024 1 1).

(** Scenario B of the specification; [memo] and [reference] are the two
    empty fields, in any of their representations. *)
Definition inv_2 : Inv.t :=
  Inv.mk (Str "INV-2") (Str "Acme Private Limited") (usd 50) (Str "USD")
    (midnight 2024 2 1).

Definition pay_2 (memo reference : option cell) : Pay.t :=
  Pay.mk (Str "PAY-2") (Some (Str "acme pvt ltd")) memo reference
    (usd 30) (Str "USD") (midnight 2024 2 20).

(** An empty field: the column is absent, the cell is NaN, or the cell
    is the empty string. *)
Definition empty_fields : list (option cell) := [None; Some NaN; Some (Str "")].

Definition partial_2 : Match :=
  mkMatch (Str "PAY-2") (Str "INV-2") (5 # 10) "Partial payment - lower amount".

Definition remainder_2 : Remainder :=
  mkRemainder (Str "INV-2") (Str "Acme Private Limited") (usd 50)
    (Str "PAY-2") (usd 30) (usd 20) (Str "USD").


(** Whole-number amounts: the columns are int64.  A payment of 30 on
    an invoice of 50 for the same customer, no memo. *)
Definition inv_int : Inv.t :=
  Inv.mk (Str "INV-5") (Str "Umbrella Ltd") (Int 50) (Str "USD") (midnight 2024 2 1).

Definition pay_int : Pay.t :=
  Pay.mk (Str "PAY-5") (Some (Str "Umbrella")) (Some NaN) (Some NaN)
    (Int 30) (Str "USD") (midnight 2024 4 1).

End Scenario.

(** The five (confidence, rationale) pairs as the specification names
    them, and as the code writes them. *)
Definition spec_labels : list (Q * string) :=
  [ (1, "direct_reference"); (8 # 10, "amount_date_proximity");
    (7 # 10, "name_amount_exact"); (5 # 10, "name_partial_payment");
    (4 # 10, "name_overpayment") ]%Q.

Definition code_labels : list (Q * string) :=
  [ (1, "Direct invoice_id found in memo/reference");
    (8 # 10, "Exact amount and near-date (±7 days)");
    (7 # 10, "Name-normalized and amount match");
    (5 # 10, "Partial payment - lower amount");
    (4 # 10, "Overpayment - higher amount") ]%Q.

Definition label_of (m : Match) : Q * string := (confidence m, rationale m).

(** ** Column names

    The first lines of [match_records] put the column labels of the two
    frames in canonical form: [columns.str.strip().str.lower()], then
    [rename] with a dictionary of two entries. *)

Definition rename (columns : list (string * string)) (label : string) : string :=
  match find (fun kv => String.eqb (fst kv) label) columns with
  | Some kv => snd kv
  | None => label
  end.

Definition invoice_column (label : string) : string :=
  rename [("invoice_amount", "amount"); ("invoice_date", "date")]
    (PyStr.lower (PyStr.strip label)).

Definition payment_column (label : string) : string :=
  rename [("payment_amount", "amount"); ("payment_date", "date")]
    (PyStr.lower (PyStr.strip label)).

(** A string made of white space only. *)
Fixpoint all_space (s : string) : bool :=
  match s with
  | EmptyString => true
  | String c s' => PyStr.isspace c && all_space s'
  end.

(** * Theorems *)

(** ** Strings *)

Section StringFacts.

Import PyStr.

Lemma isupper_lower_char (c : ascii) : isupper (lower_char c) = false.
Proof. destruct c as [[] [] [] [] [] [] [] []]; reflexivity. Qed.

Lemma isspace_lower_char (c : ascii) : isspace (lower_char c) = isspace c.
Proof. destruct c as [[] [] [] [] [] [] [] []]; reflexivity. Qed.

Lemma lower_char_fix (c : ascii) : isupper c = false -> lower_char c = c.
Proof. unfold lower_char. intros ->. reflexivity. Qed.

Lemma has_upper_lower (s : string) : has_upper (lower s) = false.
Proof.
  induction s as [|c s IH]; simpl; [reflexivity|].
  now rewrite isupper_lower_char, IH.
Qed.

Lemma lower_fix (s : string) : has_upper s = false -> lower s = s.
Proof.
  induction s as [|c s IH]; simpl; [reflexivity|].
  intros H. apply orb_false_iff in H as [Hc Hs].
  now rewrite lower_char_fix, IH.
Qed.

(** A pattern with an upper-case letter occurs nowhere in a string that
    has none. *)
Lemma prefix_upper (old s : string) :
  has_upper old = true -> has_upper s = false -> prefix old s = false.
Proof.
  revert s. induction old as [|a old IH]; simpl; [discriminate|].
  intros [|b s] Ho Hs; [reflexivity|]. simpl in Hs |- *.
  apply orb_false_iff in Hs as [Hb Hs].
  destruct (ascii_dec a b) as [->|]; [|reflexivity].
  rewrite Hb in Ho. simpl in Ho. now apply IH.
Qed.

Lemma replace_fix (old new s : string) :
  has_upper old = true -> has_upper s = false -> replace old new s = s.
Proof.
  intros Ho. unfold replace. induction s as [|c s IH]; [reflexivity|].
  intros Hs. cbn [replace_from].
  rewrite (prefix_upper old (String c s) Ho Hs).
  simpl in Hs. apply orb_false_iff in Hs as [_ Hs].
  now rewrite IH.
Qed.

Lemma last_ok_tail (c : ascii) (s : string) : last_ok (String c s) -> last_ok s.
Proof.
  unfold last_ok. simpl. intros H d Hd. apply H. now rewrite Hd.
Qed.

Lemma last_ok_empty : last_ok EmptyString.
Proof. intros c H. discriminate. Qed.

Lemma last_char_none (s : string) : last_char s = None -> s = EmptyString.
Proof.
  destruct s as [|c s]; [reflexivity|]. simpl.
  destruct (last_char s); discriminate.
Qed.

Lemma last_char_app (a b : string) :
  last_char (a ++ b) = match last_char b with None => last_char a | r => r end.
Proof.
  induction a as [|c a IH]; simpl.
  - now destruct (last_char b).
  - rewrite IH. destruct (last_char b); [reflexivity|]. reflexivity.
Qed.

Lemma last_ok_app (a b : string) : last_ok a -> last_ok b -> last_ok (a ++ b).
Proof.
  intros Ha Hb c. rewrite last_char_app.
  destruct (last_char b) eqn:E; intros H.
  - apply Hb. congruence.
  - now apply Ha.
Qed.

Lemma last_ok_cons (c : ascii) (s : string) :
  isspace c = false -> last_ok s -> last_ok (String c s).
Proof.
  intros Hc Hs. apply (last_ok_app (String c EmptyString) s); [|exact Hs].
  intros d H. simpl in H. congruence.
Qed.

Lemma head_ok_lstrip (s : string) : head_ok (lstrip s).
Proof.
  induction s as [|c s IH]; simpl; [exact I|].
  destruct (isspace c) eqn:E; [exact IH|]. exact E.
Qed.

Lemma last_ok_lstrip (s : string) : last_ok s -> last_ok (lstrip s).
Proof.
  induction s as [|c s IH]; simpl; [auto|].
  intros H. destruct (isspace c); [|exact H].
  apply IH. now apply last_ok_tail in H.
Qed.

Lemma last_ok_rstrip (s : string) : last_ok (rstrip s).
Proof.
  induction s as [|c s IH]; simpl; [apply last_ok_empty|].
  destruct (rstrip s) as [|d r] eqn:E.
  - destruct (isspace c) eqn:Ec; [apply last_ok_empty|].
    now apply last_ok_cons; [|apply last_ok_empty].
  - intros x Hx. apply IH. simpl in Hx |- *.
    destruct (last_char r); exact Hx.
Qed.

Lemma lstrip_fix (s : string) : head_ok s -> lstrip s = s.
Proof. destruct s as [|c s]; simpl; [reflexivity|]. now intros ->. Qed.

Lemma rstrip_fix (s : string) : last_ok s -> rstrip s = s.
Proof.
  induction s as [|c s IH]; simpl; [reflexivity|].
  intros H. rewrite (IH (last_ok_tail _ _ H)).
  destruct s as [|d r]; [|reflexivity].
  now rewrite (H c eq_refl).
Qed.

Lemma strip_fix (s : string) : head_ok s -> last_ok s -> strip s = s.
Proof.
  intros Hh Hl. unfold strip. rewrite (rstrip_fix s Hl). now apply lstrip_fix.
Qed.

Lemma head_ok_strip (s : string) : head_ok (strip s).
Proof. apply head_ok_lstrip. Qed.

Lemma last_ok_strip (s : string) : last_ok (strip s).
Proof. apply last_ok_lstrip, last_ok_rstrip. Qed.

Lemma head_ok_replace (old new s : string) :
  new <> EmptyString -> head_ok new -> head_ok s -> head_ok (replace old new s).
Proof.
  intros Hne Hn Hs. unfold replace. destruct s as [|c s]; [exact I|].
  cbn [replace_from]. destruct (prefix old (String c s)).
  - destruct new as [|d new]; [congruence|]. exact Hn.
  - exact Hs.
Qed.

Lemma last_ok_push (c : ascii) (s : string) :
  s <> EmptyString -> last_ok s -> last_ok (String c s).
Proof.
  intros Hne Hs x. simpl. destruct (last_char s) eqn:E.
  - intros Hx. apply Hs. congruence.
  - now apply last_char_none in E.
Qed.

Lemma replace_from_nonempty (old new : string) (c : ascii) (s : string) :
  new <> EmptyString -> replace_from old new 0 (String c s) <> EmptyString.
Proof.
  intros Hne. cbn [replace_from]. destruct (prefix old (String c s)).
  - destruct new; [congruence|discriminate].
  - discriminate.
Qed.

Lemma last_ok_replace_from (old new : string) (skip : nat) (s : string) :
  new <> EmptyString -> last_ok new -> last_ok s ->
  last_ok (replace_from old new skip s).
Proof.
  intros Hne Hn. revert skip. induction s as [|c s IH]; intros skip Hs.
  - apply last_ok_empty.
  - pose proof (last_ok_tail _ _ Hs) as Ht. cbn [replace_from].
    destruct skip as [|k]; [|now apply IH].
    destruct (prefix old (String c s)).
    + apply last_ok_app; [exact Hn|now apply IH].
    + destruct s as [|d r]; [exact Hs|].
      apply last_ok_push; [now apply replace_from_nonempty|now apply IH].
Qed.

Lemma last_ok_replace (old new s : string) :
  new <> EmptyString -> last_ok new -> last_ok s -> last_ok (replace old new s).
Proof. apply last_ok_replace_from. Qed.

Lemma head_ok_lower (s : string) : head_ok s -> head_ok (lower s).
Proof.
  destruct s as [|c s]; simpl; [auto|]. now rewrite isspace_lower_char.
Qed.

Lemma last_char_lower (s : string) :
  last_char (lower s) = option_map lower_char (last_char s).
Proof.
  induction s as [|c s IH]; simpl; [reflexivity|].
  rewrite IH. now destruct (last_char s).
Qed.

Lemma last_ok_lower (s : string) : last_ok s -> last_ok (lower s).
Proof.
  intros H c. rewrite last_char_lower.
  destruct (last_char s) as [d|] eqn:E; simpl; [|discriminate].
  intros [= <-]. rewrite isspace_lower_char. now apply H.
Qed.

End StringFacts.

(** The four replacement texts neither start nor end with white space. *)
Lemma ends_Pvt_Ltd :
  "Pvt Ltd" <> "" /\ PyStr.head_ok "Pvt Ltd" /\ PyStr.last_ok "Pvt Ltd".
Proof.
  split; [discriminate|]. split; [reflexivity|].
  intros c H. simpl in H. injection H as <-. reflexivity.
Qed.

Lemma ends_Ltd : "Ltd" <> "" /\ PyStr.head_ok "Ltd" /\ PyStr.last_ok "Ltd".
Proof.
  split; [discriminate|]. split; [reflexivity|].
  intros c H. simpl in H. injection H as <-. reflexivity.
Qed.

(** A normalised name is trimmed and has no upper-case letter. *)
Lemma normalized_shape (name : option cell) :
  let n := baseline_normalize_name name in
  PyStr.head_ok n /\ PyStr.last_ok n /\ PyStr.has_upper n = false.
Proof.
  assert (E : PyStr.head_ok "" /\ PyStr.last_ok "" /\ PyStr.has_upper "" = false)
    by (split; [exact I|split; [apply last_ok_empty|reflexivity]]).
  destruct name as [[s|]|]; cbn zeta; try exact E. clear E.
  destruct ends_Pvt_Ltd as (P1 & P2 & P3). destruct ends_Ltd as (L1 & L2 & L3).
  unfold baseline_normalize_name. repeat split.
  - apply head_ok_lower. repeat (apply head_ok_replace; try assumption).
    apply head_ok_strip.
  - apply last_ok_lower. repeat (apply last_ok_replace; try assumption).
    apply last_ok_strip.
  - apply has_upper_lower.
Qed.

(** C8. Name normalisation is idempotent: normalising the result of
    [baseline_normalize_name] gives that result back, for every input
    (a string, NaN or an absent value). *)
Theorem C8_normalize_idempotent (name : option cell) :
  baseline_normalize_name (Some (Str (baseline_normalize_name name))) =
  baseline_normalize_name name.
Proof.
  destruct (normalized_shape name) as (Hh & Hl & Hu).
  set (n := baseline_normalize_name name) in *.
  unfold baseline_normalize_name at 1.
  rewrite (strip_fix n Hh Hl).
  rewrite (replace_fix "Private Limited" "Pvt Ltd" n eq_refl Hu).
  rewrite (replace_fix "Pvt. Ltd" "Pvt Ltd" n eq_refl Hu).
  rewrite (replace_fix "Limited" "Ltd" n eq_refl Hu).
  rewrite (replace_fix "Ltd." "Ltd" n eq_refl Hu).
  now apply lower_fix.
Qed.

(** ** De-duplication *)

Lemma cell_same_eq (a b : cell) : cell_same a b = true <-> a = b.
Proof.
  destruct a as [x|], b as [y|]; simpl; split; try discriminate; try reflexivity.
  - intros H. apply String.eqb_eq in H. now subst.
  - intros [= ->]. apply String.eqb_refl.
Qed.

Lemma cell_same_refl (a : cell) : cell_same a a = true.
Proof. now apply cell_same_eq. Qed.

Lemma cell_same_spec (a b : cell) : reflect (a = b) (cell_same a b).
Proof.
  destruct (cell_same a b) eqn:E; constructor.
  - now apply cell_same_eq.
  - intros H. apply cell_same_eq in H. congruence.
Qed.

Lemma cell_eq_dec (a b : cell) : {a = b} + {a <> b}.
Proof. destruct (cell_same_spec a b); [now left|now right]. Qed.

Lemma cell_eqb_eq (a b : cell) : cell_eqb a b = true -> a = b.
Proof.
  destruct a as [x|], b as [y|]; simpl; try discriminate.
  intros H. apply String.eqb_eq in H. now subst.
Qed.

Lemma cell_eqb_str (s : string) : cell_eqb (Str s) (Str s) = true.
Proof. apply String.eqb_refl. Qed.

Lemma cell_eqb_nan_r (a : cell) : cell_eqb a NaN = false.
Proof. now destruct a. Qed.

Lemma isin_In (x : cell) (ids : list cell) : isin x ids = true <-> In x ids.
Proof.
  unfold isin. rewrite existsb_exists. split.
  - intros (y & Hy & E). apply cell_same_eq in E. now subst.
  - intros H. exists x. split; [exact H|apply cell_same_refl].
Qed.

Lemma drop_duplicates_from_In (seen : list cell) (rows : list Match) (m : Match) :
  In m (drop_duplicates_from seen rows) -> In m rows /\ ~ In (payment_id m) seen.
Proof.
  revert seen. induction rows as [|r rows IH]; intros seen; simpl; [tauto|].
  destruct (isin (payment_id r) seen) eqn:E.
  - intros H. apply IH in H. tauto.
  - intros [<-|H].
    + split; [now left|]. rewrite <- isin_In. congruence.
    + apply IH in H as [H1 H2]. split; [now right|].
      intros H3. apply H2. now right.
Qed.

Lemma drop_duplicates_from_ids (seen : list cell) (rows : list Match) (p : cell) :
  In p (map payment_id (drop_duplicates_from seen rows)) <->
  In p (map payment_id rows) /\ ~ In p seen.
Proof.
  revert seen. induction rows as [|r rows IH]; intros seen; simpl; [tauto|].
  destruct (isin (payment_id r) seen) eqn:E.
  - rewrite IH. apply isin_In in E. split; [tauto|].
    intros [[<-|H] Hn]; tauto.
  - simpl. rewrite IH. simpl.
    assert (Hr : ~ In (payment_id r) seen) by (rewrite <- isin_In; congruence).
    destruct (cell_eq_dec (payment_id r) p) as [<-|Hne]; tauto.
Qed.

Lemma drop_duplicates_from_NoDup (seen : list cell) (rows : list Match) :
  NoDup (map payment_id (drop_duplicates_from seen rows)).
Proof.
  revert seen. induction rows as [|r rows IH]; intros seen; simpl; [constructor|].
  destruct (isin (payment_id r) seen); [apply IH|].
  simpl. constructor; [|apply IH].
  rewrite drop_duplicates_from_ids. simpl. tauto.
Qed.

(** The row kept for a payment id is the first row of the input that
    carries it. *)
Lemma drop_duplicates_from_find (seen : list cell) (rows : list Match) (p : cell) :
  ~ In p seen ->
  find (has_pid p) (drop_duplicates_from seen rows) = find (has_pid p) rows.
Proof.
  revert seen. induction rows as [|r rows IH]; intros seen Hp; simpl; [reflexivity|].
  unfold has_pid at 2. destruct (cell_same_spec (payment_id r) p) as [E|E].
  - subst p. destruct (isin (payment_id r) seen) eqn:Es.
    + now apply isin_In in Es.
    + simpl. unfold has_pid. now rewrite cell_same_refl.
  - destruct (isin (payment_id r) seen).
    + now apply IH.
    + simpl. unfold has_pid at 1.
      destruct (cell_same_spec (payment_id r) p); [contradiction|].
      apply IH. simpl. intros [H|H]; auto.
Qed.

Lemma NoDup_map_inj {A B : Type} (f : A -> B) (l : list A) (a b : A) :
  NoDup (map f l) -> In a l -> In b l -> f a = f b -> a = b.
Proof.
  induction l as [|x l IH]; simpl; [tauto|].
  intros H Ha Hb E. inversion H as [|? ? Hx Hl]; subst.
  destruct Ha as [->|Ha], Hb as [->|Hb]; auto.
  - exfalso. apply Hx. rewrite E. now apply in_map.
  - exfalso. apply Hx. rewrite <- E. now apply in_map.
Qed.

Lemma find_has_pid (rows : list Match) (p : cell) :
  In p (map payment_id rows) -> exists m, find (has_pid p) rows = Some m.
Proof.
  intros H. apply in_map_iff in H as (m & E & Hm).
  destruct (find (has_pid p) rows) as [x|] eqn:F; [now exists x|].
  apply (find_none _ _ F) in Hm. unfold has_pid in Hm.
  rewrite E, cell_same_refl in Hm. discriminate.
Qed.

Lemma find_conj {A : Type} (g h : A -> bool) (l : list A) (m : A) :
  find g l = Some m -> h m = true -> find (fun x => g x && h x) l = Some m.
Proof.
  induction l as [|x l IH]; simpl; [discriminate|].
  destruct (g x) eqn:G; simpl.
  - intros [= ->] ->. reflexivity.
  - auto.
Qed.

Lemma find_filter {A : Type} (g h : A -> bool) (l : list A) :
  find g (filter h l) = find (fun x => g x && h x) l.
Proof.
  induction l as [|x l IH]; simpl; [reflexivity|].
  destruct (h x) eqn:H; simpl; destruct (g x); simpl; auto.
Qed.

Lemma find_sorted_max (R : Match -> Match -> Prop) (g : Match -> bool)
    (l : list Match) (m : Match) :
  StronglySorted R l -> find g l = Some m ->
  forall c, In c l -> g c = true -> c = m \/ R m c.
Proof.
  induction 1 as [|x l Hl IH Hx]; simpl; [discriminate|].
  destruct (g x) eqn:G.
  - intros [= <-] c [->|Hc] _; [now left|right].
    now apply (proj1 (Forall_forall _ _) Hx).
  - intros F c [->|Hc] Gc; [congruence|]. now apply IH.
Qed.

#[local] Instance conf_ge_trans : Transitive conf_ge.
Proof. intros a b c H1 H2. unfold conf_ge in *. now apply Qle_trans with (confidence b). Qed.

(** ** The aggregator, for any sort that meets the contract *)

Section Aggregator.

Variable sort_values : list Match -> list Match.

(** What pandas promises of [sort_values(..., ascending=False)] with the
    default [kind]: the rows are permuted, into descending order. *)
Hypothesis sort_perm : forall rows, Permutation rows (sort_values rows).
Hypothesis sort_desc : forall rows, Sorted conf_ge (sort_values rows).

Lemma final_matches_unfold (matches : list Match) :
  final_matches sort_values matches = drop_duplicates (sort_values matches).
Proof.
  destruct matches as [|m matches]; [|reflexivity]. simpl.
  pose proof (sort_perm []) as H. apply Permutation_nil in H. now rewrite H.
Qed.

Lemma final_matches_In (matches : list Match) (m : Match) :
  In m (final_matches sort_values matches) -> In m matches.
Proof.
  rewrite final_matches_unfold. intros H.
  apply drop_duplicates_from_In in H as [H _].
  now apply (Permutation_in _ (Permutation_sym (sort_perm matches))).
Qed.

Lemma final_matches_ids (matches : list Match) (p : cell) :
  In p (map payment_id (final_matches sort_values matches)) <->
  In p (map payment_id matches).
Proof.
  rewrite final_matches_unfold. unfold drop_duplicates.
  rewrite drop_duplicates_from_ids. simpl.
  pose proof (Permutation_map payment_id (sort_perm matches)) as P.
  split.
  - intros [H _]. now apply (Permutation_in _ (Permutation_sym P)).
  - intros H. split; [|tauto]. now apply (Permutation_in _ P).
Qed.

Lemma final_matches_NoDup (matches : list Match) :
  NoDup (map payment_id (final_matches sort_values matches)).
Proof. rewrite final_matches_unfold. apply drop_duplicates_from_NoDup. Qed.

Lemma final_matches_retained (matches : list Match) (p : cell) :
  retained (final_matches sort_values matches) p = retained (sort_values matches) p.
Proof.
  rewrite final_matches_unfold. unfold retained, drop_duplicates.
  apply drop_duplicates_from_find. simpl. tauto.
Qed.

(** C2. No two rows of the final match set share a payment id; every
    payment id that has a candidate has exactly one row in it, every row
    is one of the candidates, and the set has as many rows as there are
    distinct payment ids among the candidates (so at most that many). *)
Theorem C2_one_row_per_payment (matches : list Match) :
  let final := final_matches sort_values matches in
  NoDup (map payment_id final) /\
  (forall p, In p (map payment_id matches) ->
     exists! m, In m final /\ payment_id m = p) /\
  (forall m, In m final -> In (payment_id m) (map payment_id matches)) /\
  List.length final = List.length (nodup cell_eq_dec (map payment_id matches)) /\
  (List.length final <= List.length (nodup cell_eq_dec (map payment_id matches)))%nat.
Proof.
  intros final.
  assert (ND : NoDup (map payment_id final)) by apply final_matches_NoDup.
  assert (L : List.length final = List.length (nodup cell_eq_dec (map payment_id matches))).
  { rewrite <- (List.length_map payment_id final).
    apply Permutation_length, NoDup_Permutation;
      [exact ND|apply NoDup_nodup|].
    intros p. rewrite nodup_In. apply final_matches_ids. }
  split; [exact ND|]. split; [|split; [|split; [exact L|now rewrite L]]].
  - intros p Hp. apply final_matches_ids in Hp. fold final in Hp.
    apply in_map_iff in Hp as (m & E & Hm).
    exists m. split; [now split|].
    intros m' [Hm' E']. apply (NoDup_map_inj payment_id final); congruence.
  - intros m Hm. apply final_matches_ids. now apply in_map.
Qed.

(** C1 (amended). For every payment id that has a candidate, the row
    retained for it is one of its candidates and its confidence is the
    maximum over the candidates of that payment id.  Among the
    candidates tied at that maximum, the retained one is the first in
    the order that [sort_values] produced, whatever that order is: it is
    the earliest-generated one whenever the sort is stable. *)
Theorem C1_retained_has_max_confidence (matches : list Match) (p : cell) :
  In p (map payment_id matches) ->
  exists m,
    retained (final_matches sort_values matches) p = Some m /\
    In m (final_matches sort_values matches) /\
    In m matches /\ payment_id m = p /\
    (forall c, In c matches -> payment_id c = p ->
       (confidence c <= confidence m)%Q) /\
    find (has_pid p) (sort_values matches) = Some m /\
    earliest_with (sort_values matches) p (confidence m) = Some m /\
    (stable sort_values -> earliest_with matches p (confidence m) = Some m).
Proof.
  intros Hp.
  assert (Hp' : In p (map payment_id (sort_values matches)))
    by now apply (Permutation_in _ (Permutation_map payment_id (sort_perm matches))).
  destruct (find_has_pid _ _ Hp') as (m & F).
  exists m. rewrite final_matches_retained. split; [exact F|].
  pose proof (find_some _ _ F) as [Hm Hpid].
  apply cell_same_eq in Hpid.
  assert (Hf : In m (final_matches sort_values matches)).
  { pose proof (final_matches_retained matches p) as R. unfold retained in R.
    rewrite <- R in F. now apply find_some in F. }
  split; [exact Hf|]. split; [now apply final_matches_In|]. split; [exact Hpid|].
  assert (T : earliest_with (sort_values matches) p (confidence m) = Some m).
  { unfold earliest_with. apply find_conj; [exact F|].
    apply Qeq_bool_iff. reflexivity. }
  split; [|split; [exact F|split; [exact T|]]].
  - intros c Hc Ec.
    assert (SS : StronglySorted conf_ge (sort_values matches))
      by (apply Sorted_StronglySorted; [exact conf_ge_trans|apply sort_desc]).
    destruct (find_sorted_max conf_ge (has_pid p) _ m SS F c) as [->|H].
    + now apply (Permutation_in _ (sort_perm matches)).
    + unfold has_pid. rewrite Ec. apply cell_same_refl.
    + apply Qle_refl.
    + exact H.
  - intros St. revert T. unfold earliest_with.
    rewrite <- !(find_filter (has_pid p) (fun x => Qeq_bool (confidence x) (confidence m))).
    now rewrite St.
Qed.

End Aggregator.

(** ** The two insertion sorts meet the contract *)

Lemma Qlt_bool_iff (x y : Q) : Qlt_bool x y = true <-> (x < y)%Q.
Proof.
  unfold Qlt_bool. rewrite negb_true_iff, <- not_true_iff_false, Qle_bool_iff.
  split; [apply Qnot_le_lt|apply Qlt_not_le].
Qed.

Lemma Qlt_bool_false (x y : Q) : Qlt_bool x y = false -> (y <= x)%Q.
Proof.
  unfold Qlt_bool. rewrite negb_false_iff. apply Qle_bool_iff.
Qed.

Lemma insert_before_equal_perm (row : Match) (l : list Match) :
  Permutation (row :: l) (insert_before_equal row l).
Proof.
  induction l as [|r l IH]; simpl; [reflexivity|].
  destruct (Qlt_bool (confidence row) (confidence r)); [|reflexivity].
  rewrite perm_swap. now constructor.
Qed.

Lemma insert_after_equal_perm (row : Match) (l : list Match) :
  Permutation (row :: l) (insert_after_equal row l).
Proof.
  induction l as [|r l IH]; simpl; [reflexivity|].
  destruct (Qle_bool (confidence row) (confidence r)); [|reflexivity].
  rewrite perm_swap. now constructor.
Qed.

Lemma sort_stable_perm (rows : list Match) : Permutation rows (sort_stable rows).
Proof.
  induction rows as [|r rows IH]; simpl; [constructor|].
  rewrite <- insert_before_equal_perm. now constructor.
Qed.

Lemma sort_reversing_perm (rows : list Match) : Permutation rows (sort_reversing rows).
Proof.
  induction rows as [|r rows IH]; simpl; [constructor|].
  rewrite <- insert_after_equal_perm. now constructor.
Qed.

Lemma insert_before_equal_sorted (row : Match) (l : list Match) :
  Sorted conf_ge l -> Sorted conf_ge (insert_before_equal row l).
Proof.
  induction 1 as [|r l Hl IH Hr]; simpl; [repeat constructor|].
  destruct (Qlt_bool (confidence row) (confidence r)) eqn:E.
  - constructor; [exact IH|].
    apply Qlt_bool_iff, Qlt_le_weak in E.
    destruct l as [|x l]; simpl; [now constructor|].
    destruct (Qlt_bool (confidence row) (confidence x)); constructor.
    + now inversion Hr.
    + exact E.
  - apply Qlt_bool_false in E. constructor; [now constructor|now constructor].
Qed.

Lemma insert_after_equal_sorted (row : Match) (l : list Match) :
  Sorted conf_ge l -> Sorted conf_ge (insert_after_equal row l).
Proof.
  induction 1 as [|r l Hl IH Hr]; simpl; [repeat constructor|].
  destruct (Qle_bool (confidence row) (confidence r)) eqn:E.
  - constructor; [exact IH|].
    apply Qle_bool_iff in E.
    destruct l as [|x l]; simpl; [now constructor|].
    destruct (Qle_bool (confidence row) (confidence x)); constructor.
    + now inversion Hr.
    + exact E.
  - assert (H : (confidence r <= confidence row)%Q).
    { apply Qlt_le_weak, Qnot_le_lt. rewrite <- Qle_bool_iff. congruence. }
    constructor; [now constructor|now constructor].
Qed.

Lemma sort_stable_desc (rows : list Match) : Sorted conf_ge (sort_stable rows).
Proof.
  induction rows as [|r rows IH]; simpl; [constructor|].
  now apply insert_before_equal_sorted.
Qed.

Lemma sort_reversing_desc (rows : list Match) : Sorted conf_ge (sort_reversing rows).
Proof.
  induction rows as [|r rows IH]; simpl; [constructor|].
  now apply insert_after_equal_sorted.
Qed.

Lemma insert_before_equal_filter (q : Q) (row : Match) (l : list Match) :
  filter (fun m => Qeq_bool (confidence m) q) (insert_before_equal row l) =
  filter (fun m => Qeq_bool (confidence m) q) (row :: l).
Proof.
  induction l as [|r l IH]; [reflexivity|].
  cbn [insert_before_equal].
  destruct (Qlt_bool (confidence row) (confidence r)) eqn:E; [|reflexivity].
  cbn [filter] in *. rewrite IH.
  destruct (Qeq_bool (confidence row) q) eqn:E1; [|reflexivity].
  destruct (Qeq_bool (confidence r) q) eqn:E2; [|reflexivity].
  apply Qlt_bool_iff in E. apply Qeq_bool_iff in E1, E2.
  rewrite E1, E2 in E. now apply Qlt_irrefl in E.
Qed.

Lemma sort_stable_stable : stable sort_stable.
Proof.
  intros rows q. induction rows as [|r rows IH]; [reflexivity|].
  cbn [sort_stable fold_right]. rewrite insert_before_equal_filter.
  cbn [filter]. fold (sort_stable rows). now rewrite IH.
Qed.

(** ** Candidates *)

Lemma emit_In (o : option Match) (m : Match) : In m (emit o) <-> o = Some m.
Proof.
  destruct o as [x|]; simpl; split; try tauto; try discriminate.
  - intros [->|[]]. reflexivity.
  - intros [= ->]. now left.
Qed.

Lemma scan_In (body : Pay.t -> Inv.t -> option Match)
    (invoices : list Inv.t) (payments : list Pay.t) (m : Match) :
  In m (scan body invoices payments) <->
  exists pay inv, In pay payments /\ In inv invoices /\ body pay inv = Some m.
Proof.
  unfold scan. rewrite in_flat_map. split.
  - intros (pay & Hp & H). apply in_flat_map in H as (inv & Hi & H).
    apply emit_In in H. now exists pay, inv.
  - intros (pay & inv & Hp & Hi & H). exists pay. split; [exact Hp|].
    apply in_flat_map. exists inv. split; [exact Hi|]. now apply emit_In.
Qed.

Lemma direct_pair_ids (pay : Pay.t) (inv : Inv.t) (m : Match) :
  direct_pair pay inv = Some m -> from_pair pay inv m.
Proof.
  unfold direct_pair. destruct (PyStr.contains _ _); [|discriminate].
  intros [= <-]. now split.
Qed.

Lemma amount_date_pair_ids (pay : Pay.t) (inv : Inv.t) (m : Match) :
  amount_date_pair pay inv = Some m -> from_pair pay inv m.
Proof.
  unfold amount_date_pair. destruct (_ && _); [|discriminate].
  intros [= <-]. now split.
Qed.

Lemma name_amount_pair_ids (pay : Pay.t) (inv : Inv.t) (m : Match) :
  name_amount_pair pay inv = Some m -> from_pair pay inv m.
Proof.
  unfold name_amount_pair. cbn zeta.
  destruct (String.eqb _ _); [|discriminate].
  destruct (Py.lt (Py.abs _) _); [intros [= <-]; now split|].
  destruct (Py.lt _ _); [intros [= <-]; now split|].
  destruct (Py.gt _ _); [intros [= <-]; now split|discriminate].
Qed.

(** Every candidate comes from a payment and an invoice of the frames. *)
Lemma candidates_from_frames (invoices : list Inv.t) (payments : list Pay.t) (m : Match) :
  In m (candidates invoices payments) ->
  exists pay inv, In pay payments /\ In inv invoices /\ from_pair pay inv m.
Proof.
  unfold candidates. rewrite !in_app_iff, !scan_In.
  intros [H|[H|H]]; destruct H as (pay & inv & Hp & Hi & H);
    exists pay, inv; repeat split; try assumption.
  all: first [ apply (direct_pair_ids _ _ _ H)
             | apply (amount_date_pair_ids _ _ _ H)
             | apply (name_amount_pair_ids _ _ _ H) ].
Qed.

(** ** The remainder loop *)

Lemma payments_with_nan (payments : list Pay.t) : payments_with_id payments NaN = [].
Proof.
  unfold payments_with_id. induction payments as [|p l IH]; simpl; [reflexivity|].
  now rewrite cell_eqb_nan_r.
Qed.

Lemma invoices_with_nan (invoices : list Inv.t) : invoices_with_id invoices NaN = [].
Proof.
  unfold invoices_with_id. induction invoices as [|p l IH]; simpl; [reflexivity|].
  now rewrite cell_eqb_nan_r.
Qed.

Lemma iloc0_payments (payments : list Pay.t) (pay : Pay.t) (s : string) :
  In pay payments -> Pay.payment_id pay = Str s ->
  exists pay', iloc0 (payments_with_id payments (Str s)) = Ok pay'.
Proof.
  intros H E. unfold payments_with_id.
  destruct (filter _ payments) as [|x l] eqn:F; [|now exists x].
  assert (In pay []); [|contradiction].
  rewrite <- F. apply filter_In. split; [exact H|]. rewrite E. apply cell_eqb_str.
Qed.

Lemma iloc0_invoices (invoices : list Inv.t) (inv : Inv.t) (s : string) :
  In inv invoices -> Inv.invoice_id inv = Str s ->
  exists inv', iloc0 (invoices_with_id invoices (Str s)) = Ok inv'.
Proof.
  intros H E. unfold invoices_with_id.
  destruct (filter _ invoices) as [|x l] eqn:F; [|now exists x].
  assert (In inv []); [|contradiction].
  rewrite <- F. apply filter_In. split; [exact H|]. rewrite E. apply cell_eqb_str.
Qed.

Lemma iloc0_payment_id (payments : list Pay.t) (id : cell) (pay : Pay.t) :
  iloc0 (payments_with_id payments id) = Ok pay ->
  In pay payments /\ Pay.payment_id pay = id.
Proof.
  unfold payments_with_id. destruct (filter _ payments) as [|x l] eqn:E; [discriminate|].
  intros [= <-]. assert (H : In x (x :: l)) by now left.
  rewrite <- E in H. apply filter_In in H as [H1 H2].
  now apply cell_eqb_eq in H2.
Qed.

Lemma iloc0_invoice_id (invoices : list Inv.t) (id : cell) (inv : Inv.t) :
  iloc0 (invoices_with_id invoices id) = Ok inv ->
  In inv invoices /\ Inv.invoice_id inv = id.
Proof.
  unfold invoices_with_id. destruct (filter _ invoices) as [|x l] eqn:E; [discriminate|].
  intros [= <-]. assert (H : In x (x :: l)) by now left.
  rewrite <- E in H. apply filter_In in H as [H1 H2].
  now apply cell_eqb_eq in H2.
Qed.

(** On rows that come from the frames and carry two ids, the loop raises
    nothing, and it emits exactly the records of the rows whose payment
    is below the invoice. *)
Lemma remaining_records_spec (invoices : list Inv.t) (payments : list Pay.t)
    (rows : list Match) :
  Forall (known invoices payments) rows ->
  existsb has_nan_id rows = false ->
  exists recs,
    remaining_records invoices payments rows = Ok recs /\
    forall r, In r recs <->
      exists row pay inv,
        In row rows /\
        iloc0 (payments_with_id payments (payment_id row)) = Ok pay /\
        iloc0 (invoices_with_id invoices (invoice_id row)) = Ok inv /\
        Np.lt (Pay.amount pay) (Inv.amount inv) = true /\
        r = remaining_record pay inv.
Proof.
  induction 1 as [|row rows Hrow Hrows IH]; intros Hn.
  - exists []. split; [reflexivity|]. intros r. split; [intros []|].
    intros (row & _ & _ & [] & _).
  - simpl in Hn. apply orb_false_iff in Hn as [Hn1 Hn2].
    destruct (IH Hn2) as (recs & E & Hrecs).
    destruct Hrow as (pay0 & inv0 & Hp & Hi & Ep & Ei).
    unfold has_nan_id in Hn1.
    destruct (payment_id row) as [ps|] eqn:Eps; [|discriminate].
    destruct (invoice_id row) as [qs|] eqn:Eis; [|discriminate].
    destruct (iloc0_payments payments pay0 ps Hp (eq_sym Ep)) as (pay & Epay).
    destruct (iloc0_invoices invoices inv0 qs Hi (eq_sym Ei)) as (inv & Einv).
    cbn [remaining_records]. rewrite Eps, Eis, Epay, Einv, E. cbn [bind].
    eexists. split; [reflexivity|]. intros r.
    destruct (Np.lt (Pay.amount pay) (Inv.amount inv)) eqn:F.
    + split.
      * intros [<-|Hr].
        -- exists row, pay, inv. rewrite Eps, Eis. repeat split; auto. now left.
        -- apply Hrecs in Hr as (row' & pay' & inv' & H1 & H2).
           exists row', pay', inv'. split; [now right|exact H2].
      * intros (row' & pay' & inv' & [<-|H1] & H2 & H3 & H4 & ->).
        -- left. rewrite Eps in H2. rewrite Eis in H3. congruence.
        -- right. apply Hrecs. exists row', pay', inv'. repeat split; auto.
    + rewrite Hrecs. split.
      * intros (row' & pay' & inv' & H1 & H2). exists row', pay', inv'.
        split; [now right|exact H2].
      * intros (row' & pay' & inv' & [<-|H1] & H2 & H3 & H4 & ->).
        -- rewrite Eps in H2. rewrite Eis in H3. congruence.
        -- exists row', pay', inv'. repeat split; auto.
Qed.

(** A row with a NaN id makes the loop raise [IndexError]: [==] finds no
    row of the frame for it. *)
Lemma remaining_records_raises (invoices : list Inv.t) (payments : list Pay.t)
    (rows : list Match) :
  Forall (known invoices payments) rows ->
  existsb has_nan_id rows = true ->
  remaining_records invoices payments rows = Raise IndexError.
Proof.
  induction 1 as [|row rows Hrow Hrows IH]; intros Hn; [discriminate|].
  cbn [remaining_records]. simpl in Hn.
  destruct Hrow as (pay0 & inv0 & Hp & Hi & Ep & Ei).
  unfold has_nan_id in Hn.
  destruct (payment_id row) as [ps|] eqn:Eps;
    [|now rewrite payments_with_nan].
  destruct (iloc0_payments payments pay0 ps Hp (eq_sym Ep)) as (pay & Epay).
  rewrite Epay. cbn [bind].
  destruct (invoice_id row) as [qs|] eqn:Eis;
    [|now rewrite invoices_with_nan].
  destruct (iloc0_invoices invoices inv0 qs Hi (eq_sym Ei)) as (inv & Einv).
  rewrite Einv. cbn [bind]. simpl in Hn. now rewrite (IH Hn).
Qed.

(** ** The labels *)

Lemma direct_pair_label (pay : Pay.t) (inv : Inv.t) (m : Match) :
  direct_pair pay inv = Some m ->
  label_of m = (1%Q, "Direct invoice_id found in memo/reference").
Proof.
  unfold direct_pair. destruct (PyStr.contains _ _); [|discriminate].
  now intros [= <-].
Qed.

Lemma amount_date_pair_label (pay : Pay.t) (inv : Inv.t) (m : Match) :
  amount_date_pair pay inv = Some m ->
  label_of m = ((8 # 10)%Q, "Exact amount and near-date (±7 days)").
Proof.
  unfold amount_date_pair. destruct (_ && _); [|discriminate].
  now intros [= <-].
Qed.

(** The branch of the name scan that emitted a row decides its label. *)
Lemma name_amount_pair_label (pay : Pay.t) (inv : Inv.t) (m : Match) :
  name_amount_pair pay inv = Some m ->
  let near := Py.lt (Py.abs (Py.sub (Pay.amount pay) (Inv.amount inv))) tolerance in
  (near = true /\ label_of m = ((7 # 10)%Q, "Name-normalized and amount match")) \/
  (near = false /\ Py.lt (Pay.amount pay) (Inv.amount inv) = true /\
   label_of m = ((5 # 10)%Q, "Partial payment - lower amount")) \/
  (near = false /\ Py.lt (Pay.amount pay) (Inv.amount inv) = false /\
   Py.gt (Pay.amount pay) (Inv.amount inv) = true /\
   label_of m = ((4 # 10)%Q, "Overpayment - higher amount")).
Proof.
  unfold name_amount_pair. cbn zeta.
  destruct (String.eqb _ _); [|discriminate].
  destruct (Py.lt (Py.abs _) _); [intros [= <-]; now left|].
  destruct (Py.lt _ _); [intros [= <-]; right; now left|].
  destruct (Py.gt _ _); [intros [= <-]; right; now right|discriminate].
Qed.

(** C6 (amended). Every candidate carries the confidence and the
    rationale text of the branch that emitted it, and nothing else: 1.0
    with "Direct invoice_id found in memo/reference" from the direct
    scan, 0.8 with "Exact amount and near-date (±7 days)" from the
    amount/date scan, and from the name scan 0.7 with "Name-normalized
    and amount match", 0.5 with "Partial payment - lower amount" or 0.4
    with "Overpayment - higher amount". *)
Theorem C6_labels_of_the_code (invoices : list Inv.t) (payments : list Pay.t) :
  Forall (fun m => label_of m = (1%Q, "Direct invoice_id found in memo/reference"))
    (scan direct_pair invoices payments) /\
  Forall (fun m => label_of m = ((8 # 10)%Q, "Exact amount and near-date (±7 days)"))
    (scan amount_date_pair invoices payments) /\
  Forall (fun m => In (label_of m)
            [ ((7 # 10)%Q, "Name-normalized and amount match");
              ((5 # 10)%Q, "Partial payment - lower amount");
              ((4 # 10)%Q, "Overpayment - higher amount") ])
    (scan name_amount_pair invoices payments) /\
  Forall (fun m => In (label_of m) code_labels) (candidates invoices payments).
Proof.
  assert (D : Forall (fun m => label_of m =
                (1%Q, "Direct invoice_id found in memo/reference"))
                (scan direct_pair invoices payments)).
  { apply Forall_forall. intros m H. apply scan_In in H as (pay & inv & _ & _ & H).
    now apply direct_pair_label in H. }
  assert (A : Forall (fun m => label_of m =
                ((8 # 10)%Q, "Exact amount and near-date (±7 days)"))
                (scan amount_date_pair invoices payments)).
  { apply Forall_forall. intros m H. apply scan_In in H as (pay & inv & _ & _ & H).
    now apply amount_date_pair_label in H. }
  assert (N : Forall (fun m => In (label_of m)
                [ ((7 # 10)%Q, "Name-normalized and amount match");
                  ((5 # 10)%Q, "Partial payment - lower amount");
                  ((4 # 10)%Q, "Overpayment - higher amount") ])
                (scan name_amount_pair invoices payments)).
  { apply Forall_forall. intros m H. apply scan_In in H as (pay & inv & _ & _ & H).
    apply name_amount_pair_label in H. cbn zeta in H.
    destruct H as [(_ & ->)|[(_ & _ & ->)|(_ & _ & _ & ->)]]; simpl; tauto. }
  repeat split; try assumption.
  unfold candidates. rewrite !Forall_app. repeat split.
  - eapply Forall_impl; [|exact D]. intros m ->. simpl. tauto.
  - eapply Forall_impl; [|exact A]. intros m ->. simpl. tauto.
  - eapply Forall_impl; [|exact N]. simpl. intros m H. tauto.
Qed.

(** C6 fails as stated: the direct-reference candidate of a payment that
    quotes its invoice carries the rationale "Direct invoice_id found in
    memo/reference", which is none of the labels of the specification. *)
Lemma C6_counterexample :
  In (Scenario.direct "PAY-1" "INV-10")
     (candidates [Scenario.inv_1; Scenario.inv_10] [Scenario.pay_1]) /\
  rationale (Scenario.direct "PAY-1" "INV-10") <> "direct_reference" /\
  ~ In (label_of (Scenario.direct "PAY-1" "INV-10")) spec_labels.
Proof.
  split; [vm_compute; tauto|]. split; [discriminate|].
  simpl. intros H. repeat destruct H as [H|H]; try discriminate H. exact H.
Qed.

(** ** Null amounts and dates *)

Lemma f64_sub_nan_l (x : f64) : f64_sub S754_nan x = S754_nan.
Proof. reflexivity. Qed.

Lemma f64_sub_nan_r (x : f64) : f64_sub x S754_nan = S754_nan.
Proof. now destruct x. Qed.

Lemma py_sub_nan (a b : num) :
  a = Float f64_nan \/ b = Float f64_nan -> Py.sub a b = Float f64_nan.
Proof.
  intros [-> | ->].
  - destruct b; reflexivity.
  - destruct a; simpl; now rewrite f64_sub_nan_r.
Qed.

Lemma py_lt_nan_l (a : num) : Py.lt (Float f64_nan) a = false.
Proof. destruct a; reflexivity. Qed.

Lemma py_lt_nan_r (a : num) : Py.lt a (Float f64_nan) = false.
Proof. destruct a as [z|f]; [reflexivity|]. simpl. unfold f64_lt, SFltb. now destruct f. Qed.

Lemma near_nan (a b : num) :
  a = Float f64_nan \/ b = Float f64_nan ->
  Py.lt (Py.abs (Py.sub a b)) tolerance = false.
Proof. intros H. now rewrite (py_sub_nan a b H). Qed.



Lemma name_amount_pair_null (pay : Pay.t) (inv : Inv.t) :
  Pay.amount pay = Float f64_nan \/ Inv.amount inv = Float f64_nan ->
  name_amount_pair pay inv = None.
Proof.
  intros H. unfold name_amount_pair. cbn zeta.
  destruct (String.eqb _ _); [|reflexivity].
  rewrite near_nan by exact H. unfold Py.gt.
  destruct H as [H|H]; rewrite H; now rewrite ?py_lt_nan_l, ?py_lt_nan_r.
Qed.

(** ** The core, for any sort that permutes the rows *)

Lemma filter_all {A : Type} (f : A -> bool) (l : list A) :
  (forall x, In x l -> f x = true) -> filter f l = l.
Proof.
  induction l as [|x l IH]; simpl; [reflexivity|].
  intros H. rewrite (H x) by now left. f_equal. apply IH. intros y Hy.
  apply H. now right.
Qed.

Lemma candidates_nil_l (payments : list Pay.t) : candidates [] payments = [].
Proof.
  unfold candidates, scan. simpl.
  assert (E : forall A (l : list A), flat_map (fun _ => @nil Match) l = [])
    by (induction l; auto).
  now rewrite !E.
Qed.

Lemma candidates_nil_r (invoices : list Inv.t) : candidates invoices [] = [].
Proof. reflexivity. Qed.


Section MatchRecords.

Variable sort_values : list Match -> list Match.
Hypothesis sort_perm : forall rows, Permutation rows (sort_values rows).

Lemma final_matches_known (invoices : list Inv.t) (payments : list Pay.t) :
  Forall (known invoices payments)
    (final_matches sort_values (candidates invoices payments)).
Proof.
  apply Forall_forall. intros m H.
  apply (final_matches_In sort_values sort_perm) in H.
  now apply candidates_from_frames.
Qed.

(** [match_records] returns the final matches, the two unmatched frames
    and the trace of its report when every final match carries two ids;
    it raises [IndexError], and does nothing else, when one does not. *)
Lemma match_records_cases (invoices : list Inv.t) (payments : list Pay.t) :
  let final := final_matches sort_values (candidates invoices payments) in
  (existsb has_nan_id final = false ->
   exists recs,
     remaining_records invoices payments final = Ok recs /\
     match_records sort_values invoices payments =
       Ok ((final,
            filter (fun p => negb (isin (Pay.payment_id p) (map payment_id final)))
              payments,
            filter (fun i => negb (isin (Inv.invoice_id i) (map invoice_id final)))
              invoices),
           report recs)) /\
  (existsb has_nan_id final = true ->
   match_records sort_values invoices payments = Raise IndexError).
Proof.
  intros final. split; intros H.
  - destruct (remaining_records_spec invoices payments final
                (final_matches_known invoices payments) H) as (recs & E & _).
    exists recs. split; [exact E|].
    unfold match_records. fold final. now rewrite E.
  - unfold match_records. fold final.
    now rewrite (remaining_records_raises invoices payments final
                   (final_matches_known invoices payments) H).
Qed.


(** C3 (amended). When every final match carries a payment id and an
    invoice id: for every row of the final match set, with the payment
    and the invoice that the loop looks up for it, a remainder record is
    emitted iff the payment's amount is strictly less than the
    invoice's amount; the record is the one built from that pair and its
    remaining_amount is invoice.amount minus payment.amount as numpy
    computes it (rounded to the nearest float, or wrapped around on 64
    bits for two integers).  Equal or overpaid matches produce no
    record, every record comes from a row of the final match set, and
    the 0.01 tolerance plays no part.  When a final match carries a NaN
    id the loop raises [IndexError] and no record is emitted. *)
Theorem C3_remainder_iff_underpaid (invoices : list Inv.t) (payments : list Pay.t) :
  let final := final_matches sort_values (candidates invoices payments) in
  (existsb has_nan_id final = false ->
   exists unmatched_payments unmatched_invoices recs,
     match_records sort_values invoices payments =
       Ok ((final, unmatched_payments, unmatched_invoices), report recs) /\
     (forall row, In row final ->
        exists pay inv,
          iloc0 (payments_with_id payments (payment_id row)) = Ok pay /\
          iloc0 (invoices_with_id invoices (invoice_id row)) = Ok inv /\
          ((exists r, In r recs /\ r_payment_id r = payment_id row) <->
           Np.lt (Pay.amount pay) (Inv.amount inv) = true) /\
          (forall r, In r recs -> r_payment_id r = payment_id row ->
             r = remaining_record pay inv /\
             remaining_amount r = Np.sub (Inv.amount inv) (Pay.amount pay))) /\
     (forall r, In r recs ->
        exists row, In row final /\ r_payment_id r = payment_id row)) /\
  (existsb has_nan_id final = true ->
   match_records sort_values invoices payments = Raise IndexError).
Proof.
  intros final. split; [|apply match_records_cases]. intros Hn.
  pose proof (final_matches_known invoices payments) as K. fold final in K.
  destruct (remaining_records_spec invoices payments final K Hn) as (recs & E & Hrecs).
  destruct (proj1 (match_records_cases invoices payments) Hn) as (recs' & E' & M).
  fold final in E', M.
  assert (recs' = recs) by congruence. subst recs'.
  eexists _, _, recs. split; [exact M|].
  assert (ND : NoDup (map payment_id final))
    by apply (final_matches_NoDup sort_values sort_perm).
  assert (Own : forall r row pay inv,
            In row final ->
            iloc0 (payments_with_id payments (payment_id row)) = Ok pay ->
            iloc0 (invoices_with_id invoices (invoice_id row)) = Ok inv ->
            In r recs -> r_payment_id r = payment_id row ->
            Np.lt (Pay.amount pay) (Inv.amount inv) = true /\
            r = remaining_record pay inv).
  { intros r row pay inv Hrow Ep Ei Hr Hid.
    apply Hrecs in Hr as (row' & pay' & inv' & Hrow' & Ep' & Ei' & F & ->).
    simpl in Hid. apply iloc0_payment_id in Ep' as Hp'. destruct Hp' as [_ Hp'].
    assert (row' = row)
      by (apply (NoDup_map_inj payment_id final); congruence).
    subst row'. assert (pay' = pay) by congruence. assert (inv' = inv) by congruence.
    subst. now split. }
  split.
  - intros row Hrow.
    assert (Hrn : has_nan_id row = false).
    { apply not_true_iff_false. intros T.
      assert (X : existsb has_nan_id final = true)
        by (apply existsb_exists; now exists row).
      congruence. }
    pose proof (proj1 (Forall_forall _ _) K row Hrow) as (pay0 & inv0 & Hp & Hi & Ep & Ei).
    unfold has_nan_id in Hrn.
    destruct (payment_id row) as [ps|] eqn:Eps; [|discriminate].
    destruct (invoice_id row) as [qs|] eqn:Eqs; [|discriminate].
    destruct (iloc0_payments payments pay0 ps Hp (eq_sym Ep)) as (pay & Epay).
    destruct (iloc0_invoices invoices inv0 qs Hi (eq_sym Ei)) as (inv & Einv).
    rewrite <- Eps in Epay. rewrite <- Eqs in Einv.
    exists pay, inv. rewrite <- Eps, <- Eqs.
    split; [exact Epay|]. split; [exact Einv|]. split.
    + split.
      * intros (r & Hr & Hid). now destruct (Own r row pay inv Hrow Epay Einv Hr Hid).
      * intros F. exists (remaining_record pay inv). split.
        -- apply Hrecs. exists row, pay, inv. repeat split; auto.
        -- simpl. now apply iloc0_payment_id in Epay.
    + intros r Hr Hid.
      destruct (Own r row pay inv Hrow Epay Einv Hr Hid) as [_ ->].
      now split.
  - intros r Hr. apply Hrecs in Hr as (row & pay & inv & Hrow & Ep & _ & _ & ->).
    exists row. split; [exact Hrow|]. simpl. now apply iloc0_payment_id in Ep.
Qed.

(** C4 (amended). When every final match carries a payment id and an
    invoice id, [match_records] returns three collections to its caller:
    the final matches, the payments whose id is in no final match and
    the invoices whose id is in no final match.  The remainder records
    are not returned: when there is at least one, the core creates the
    directory "out", writes them to "out/remaining_payments.csv" and
    prints a message; when there is none it only prints a message.  When
    a final match carries a NaN id, the core raises [IndexError] from the
    remainder loop: it returns nothing, writes nothing and prints
    nothing. *)
Theorem C4_three_frames_and_a_report (invoices : list Inv.t) (payments : list Pay.t) :
  let final := final_matches sort_values (candidates invoices payments) in
  (existsb has_nan_id final = false ->
   exists unmatched_payments unmatched_invoices recs trace,
     match_records sort_values invoices payments =
       Ok ((final, unmatched_payments, unmatched_invoices), trace) /\
     (forall p, In p unmatched_payments <->
        In p payments /\ ~ In (Pay.payment_id p) (map payment_id final)) /\
     (forall i, In i unmatched_invoices <->
        In i invoices /\ ~ In (Inv.invoice_id i) (map invoice_id final)) /\
     remaining_records invoices payments final = Ok recs /\
     trace = match recs with
             | [] => [Print msg_none]
             | _ => [MakeDirs "out"; ToCsv "out/remaining_payments.csv" recs;
                     Print msg_saved]
             end) /\
  (existsb has_nan_id final = true ->
   match_records sort_values invoices payments = Raise IndexError) /\
  (existsb has_nan_id final = true <->
   exists row, In row final /\ (payment_id row = NaN \/ invoice_id row = NaN)).
Proof.
  intros final. split; [|split; [apply match_records_cases|]].
  - intros Hn.
    destruct (proj1 (match_records_cases invoices payments) Hn) as (recs & E & M).
    fold final in E, M.
    do 4 eexists. split; [exact M|].
    assert (N : forall x ids, negb (isin x ids) = true <-> ~ In x ids).
    { intros x ids. rewrite negb_true_iff, <- not_true_iff_false. now rewrite isin_In. }
    split; [|split; [|split; [exact E|reflexivity]]].
    + intros p. rewrite filter_In. now rewrite N.
    + intros i. rewrite filter_In. now rewrite N.
  - rewrite existsb_exists. split.
    + intros (row & Hrow & H). exists row. split; [exact Hrow|].
      unfold has_nan_id in H.
      destruct (payment_id row); [|now left].
      destruct (invoice_id row); [discriminate|now right].
    + intros (row & Hrow & H). exists row. split; [exact Hrow|].
      unfold has_nan_id. destruct H as [-> | ->]; [reflexivity|].
      now destruct (payment_id row).
Qed.


(** C9 (amended). Scenario B: with invoice INV-2 and payment PAY-2
    alone, whichever way the empty memo and reference are represented,
    the two names normalise to "acme pvt ltd", the payment is below the
    invoice, the direct and the amount/date scans emit nothing and the
    name scan emits one candidate; the single final match has confidence
    0.5 and rationale "Partial payment - lower amount", no row is left
    unmatched, and one remainder record with remaining_amount 20 is
    written. *)
Theorem C9_scenario_B (memo reference : option cell) :
  In memo Scenario.empty_fields -> In reference Scenario.empty_fields ->
  let inv := Scenario.inv_2 in
  let pay := Scenario.pay_2 memo reference in
  baseline_normalize_name (Pay.payer_name pay) = "acme pvt ltd" /\
  baseline_normalize_name (Some (Inv.customer_name inv)) = "acme pvt ltd" /\
  Py.lt (Pay.amount pay) (Inv.amount inv) = true /\
  Np.lt (Pay.amount pay) (Inv.amount inv) = true /\
  scan direct_pair [inv] [pay] = [] /\
  scan amount_date_pair [inv] [pay] = [] /\
  scan name_amount_pair [inv] [pay] = [Scenario.partial_2] /\
  confidence Scenario.partial_2 = (5 # 10)%Q /\
  rationale Scenario.partial_2 = "Partial payment - lower amount" /\
  remaining_amount Scenario.remainder_2 = Float (f64_of_Z 20) /\
  match_records sort_values [inv] [pay] =
    Ok (([Scenario.partial_2], [], []),
        [MakeDirs "out";
         ToCsv "out/remaining_payments.csv" [Scenario.remainder_2];
         Print msg_saved]).
Proof.
  intros Hm Hr inv pay.
  assert (S1 : sort_values [Scenario.partial_2] = [Scenario.partial_2])
    by (apply Permutation_length_1_inv, sort_perm).
  assert (C : candidates [inv] [pay] = [Scenario.partial_2]).
  { subst inv pay. unfold Scenario.empty_fields in Hm, Hr. simpl in Hm, Hr.
    destruct Hm as [<-|[<-|[<-|[]]]]; destruct Hr as [<-|[<-|[<-|[]]]];
      vm_compute; reflexivity. }
  split; [reflexivity|]. split; [reflexivity|].
  split; [vm_compute; reflexivity|]. split; [vm_compute; reflexivity|].
  split.
  { subst inv pay. simpl in Hm, Hr.
    destruct Hm as [<-|[<-|[<-|[]]]]; destruct Hr as [<-|[<-|[<-|[]]]];
      vm_compute; reflexivity. }
  split; [vm_compute; reflexivity|]. split; [vm_compute; reflexivity|].
  split; [reflexivity|]. split; [reflexivity|]. split; [reflexivity|].
  unfold match_records. rewrite C. cbn [final_matches]. rewrite S1.
  vm_compute. reflexivity.
Qed.

End MatchRecords.

(** C10. When no scan emits a candidate, as happens when one of the two
    frames is empty, [match_records] raises nothing and returns an empty
    final match set, all the payments as unmatched payments and all the
    invoices as unmatched invoices; no remainder record is produced (the
    report is the single message that none was found). *)
Theorem C10_no_candidates (sort_values : list Match -> list Match)
    (invoices : list Inv.t) (payments : list Pay.t) :
  (candidates invoices payments = [] ->
   match_records sort_values invoices payments =
     Ok (([], payments, invoices), [Print msg_none]) /\
   remaining_records invoices payments (final_matches sort_values []) = Ok []) /\
  candidates [] payments = [] /\
  candidates invoices [] = [].
Proof.
  split; [|split; [apply candidates_nil_l|apply candidates_nil_r]].
  intros E. split; [|reflexivity].
  unfold match_records. rewrite E. cbn.
  rewrite !filter_all by reflexivity. reflexivity.
Qed.

(** ** The direct scan *)

(** The text that a memo or reference field contributes when it is not
    a NaN cell: nothing for an absent column, the string otherwise. *)
Lemma memo_text_strings (pay : Pay.t) (memo reference : string) :
  (Pay.memo pay = None /\ memo = "" \/ Pay.memo pay = Some (Str memo)) ->
  (Pay.reference_number pay = None /\ reference = "" \/
   Pay.reference_number pay = Some (Str reference)) ->
  memo_text pay = memo ++ " " ++ reference.
Proof.
  unfold memo_text. intros [[-> ->]| ->] [[-> ->]| ->]; reflexivity.
Qed.

(** The direct scan emits a row, of confidence 1.0, for exactly the
    pairs whose invoice id, as text, occurs in the search text. *)
Lemma direct_scan_spec (invoices : list Inv.t) (payments : list Pay.t) (m : Match) :
  In m (scan direct_pair invoices payments) <->
  exists pay inv,
    In pay payments /\ In inv invoices /\
    PyStr.contains (str (Inv.invoice_id inv)) (memo_text pay) = true /\
    m = mkMatch (Pay.payment_id pay) (Inv.invoice_id inv) 1
          "Direct invoice_id found in memo/reference".
Proof.
  rewrite scan_In. unfold direct_pair.
  split; intros (pay & inv & Hp & Hi & H); exists pay, inv.
  - destruct (PyStr.contains _ _); [|discriminate].
    injection H as <-. repeat split; assumption.
  - destruct H as [-> ->]. repeat split; assumption.
Qed.

(** C5, at the failing input.  A payment row whose memo and reference
    cells are NaN (empty in the CSV file) gets the search text
    "nan nan", not the single space that two empty strings would give,
    and so receives a direct-reference candidate of confidence 1.0 for
    the invoice whose id is "an". *)
Theorem C5_nan_cells_in_search_text :
  memo_text Scenario.pay_blank = "nan nan" /\
  PyStr.contains (str (Inv.invoice_id Scenario.inv_an)) " " = false /\
  PyStr.contains (str (Inv.invoice_id Scenario.inv_an))
    (memo_text Scenario.pay_blank) = true /\
  scan direct_pair [Scenario.inv_an] [Scenario.pay_blank] =
    [Scenario.direct "PAY-9" "an"] /\
  confidence (Scenario.direct "PAY-9" "an") = 1%Q.
Proof. repeat split; reflexivity. Qed.

(** ** Counterexamples and instances *)

(** C1 fails as stated, with either argsort that numpy may run.

    Generic introsort: nine payments quote INV-10, and so INV-1 too;
    the eighteen candidates all have confidence 1.0.  Its partition
    exchanges equal keys, and PAY-1 keeps the candidate for INV-10
    although the one for INV-1 was generated first.

    Sorting network: PAY-A settles part of two invoices of one customer
    and PAY-B settles either in full; the four candidates come as 0.5,
    0.5, 0.7, 0.7.  The merge of the two sorted pairs moves the 0.7 rows
    as a block, and after the two reversals of [nargsort] PAY-B keeps
    the candidate for INV-A2 although the one for INV-A1 was generated
    first. *)
Lemma C1_counterexample :
  (let matches := candidates [Scenario.inv_1; Scenario.inv_10] Scenario.nine_payments in
   exists ranked,
     Numpy.sort_values Numpy.aquicksort matches = Some ranked /\
     map confidence matches = repeat 1%Q 18 /\
     retained (drop_duplicates ranked) (Str "PAY-1") =
       Some (Scenario.direct "PAY-1" "INV-10") /\
     earliest_with matches (Str "PAY-1") 1 =
       Some (Scenario.direct "PAY-1" "INV-1")) /\
  (let matches := candidates [Scenario.inv_a1; Scenario.inv_a2]
                    [Scenario.pay_part; Scenario.pay_full] in
   exists ranked,
     Numpy.sort_values Numpy.argsort_register matches = Some ranked /\
     map confidence matches = [5 # 10; 5 # 10; 7 # 10; 7 # 10]%Q /\
     retained (drop_duplicates ranked) (Str "PAY-B") =
       Some (Scenario.by_name "PAY-B" "INV-A2" (7 # 10)
               "Name-normalized and amount match") /\
     earliest_with matches (Str "PAY-B") (7 # 10) =
       Some (Scenario.by_name "PAY-B" "INV-A1" (7 # 10)
               "Name-normalized and amount match")).
Proof.
  split; cbn zeta; eexists; (split; [vm_compute; reflexivity|]);
    repeat split; vm_compute; reflexivity.
Qed.

Lemma C1_witness :
  In (Str "PAY-B")
     (map payment_id
        (candidates [Scenario.inv_a1; Scenario.inv_a2]
           [Scenario.pay_part; Scenario.pay_full])) /\
  exists m,
    retained (final_matches sort_stable
                (candidates [Scenario.inv_a1; Scenario.inv_a2]
                   [Scenario.pay_part; Scenario.pay_full]))
      (Str "PAY-B") = Some m /\
    In m (final_matches sort_stable
            (candidates [Scenario.inv_a1; Scenario.inv_a2]
               [Scenario.pay_part; Scenario.pay_full])) /\
    In m (candidates [Scenario.inv_a1; Scenario.inv_a2]
            [Scenario.pay_part; Scenario.pay_full]) /\
    payment_id m = Str "PAY-B" /\
    (forall c, In c (candidates [Scenario.inv_a1; Scenario.inv_a2]
                       [Scenario.pay_part; Scenario.pay_full]) ->
       payment_id c = Str "PAY-B" -> (confidence c <= confidence m)%Q) /\
    find (has_pid (Str "PAY-B"))
      (sort_stable (candidates [Scenario.inv_a1; Scenario.inv_a2]
                      [Scenario.pay_part; Scenario.pay_full])) = Some m /\
    earliest_with
      (sort_stable (candidates [Scenario.inv_a1; Scenario.inv_a2]
                      [Scenario.pay_part; Scenario.pay_full]))
      (Str "PAY-B") (confidence m) = Some m /\
    (stable sort_stable ->
     earliest_with (candidates [Scenario.inv_a1; Scenario.inv_a2]
                      [Scenario.pay_part; Scenario.pay_full])
       (Str "PAY-B") (confidence m) = Some m).
Proof.
  assert (H : In (Str "PAY-B")
                (map payment_id
                   (candidates [Scenario.inv_a1; Scenario.inv_a2]
                      [Scenario.pay_part; Scenario.pay_full])))
    by (vm_compute; tauto).
  split; [exact H|].
  exact (C1_retained_has_max_confidence sort_stable sort_stable_perm
           sort_stable_desc _ (Str "PAY-B") H).
Defined.

Lemma C2_witness :
  let final := final_matches sort_stable
                 (candidates [Scenario.inv_1; Scenario.inv_10] [Scenario.pay_1]) in
  NoDup (map payment_id final) /\
  (forall p, In p (map payment_id
                     (candidates [Scenario.inv_1; Scenario.inv_10] [Scenario.pay_1])) ->
     exists! m, In m final /\ payment_id m = p) /\
  (forall m, In m final ->
     In (payment_id m)
        (map payment_id
           (candidates [Scenario.inv_1; Scenario.inv_10] [Scenario.pay_1]))) /\
  List.length final =
    List.length (nodup cell_eq_dec
      (map payment_id
         (candidates [Scenario.inv_1; Scenario.inv_10] [Scenario.pay_1]))) /\
  (List.length final <=
   List.length (nodup cell_eq_dec
      (map payment_id
         (candidates [Scenario.inv_1; Scenario.inv_10] [Scenario.pay_1]))))%nat.
Proof.
  exact (C2_one_row_per_payment sort_stable sort_stable_perm
           (candidates [Scenario.inv_1; Scenario.inv_10] [Scenario.pay_1])).
Defined.

(** C3 fails as stated.  The payment PAY-7 quotes INV-1 and is half a
    cent short of it (99.995 against 100.0): the match is final, the
    payment is below the invoice, and a remainder record is written
    whose remaining_amount, the float 0.0049999999999954525, lies inside
    the 0.01 band.  Both sorts agree. *)
Lemma C3_counterexample :
  match_records sort_stable [Scenario.inv_1] [Scenario.pay_short] =
    Ok (([Scenario.direct "PAY-7" "INV-1"], [], []),
        [MakeDirs "out";
         ToCsv "out/remaining_payments.csv"
           [remaining_record Scenario.pay_short Scenario.inv_1];
         Print msg_saved]) /\
  match_records sort_reversing [Scenario.inv_1] [Scenario.pay_short] =
    match_records sort_stable [Scenario.inv_1] [Scenario.pay_short] /\
  remaining_amount (remaining_record Scenario.pay_short Scenario.inv_1) =
    Float (S754_finite false 5764607523028992 (-60)) /\
  Py.lt (Py.abs (Py.sub (Inv.amount Scenario.inv_1) (Pay.amount Scenario.pay_short)))
    tolerance = true /\
  Np.lt (remaining_amount (remaining_record Scenario.pay_short Scenario.inv_1))
    tolerance = true.
Proof. repeat split; vm_compute; reflexivity. Qed.

Lemma C3_witness :
  (exists unmatched_payments unmatched_invoices recs,
     match_records sort_stable [Scenario.inv_1] [Scenario.pay_short] =
       Ok ((final_matches sort_stable
              (candidates [Scenario.inv_1] [Scenario.pay_short]),
            unmatched_payments, unmatched_invoices), report recs) /\
     (forall row,
        In row (final_matches sort_stable
                  (candidates [Scenario.inv_1] [Scenario.pay_short])) ->
        exists pay inv,
          iloc0 (payments_with_id [Scenario.pay_short] (payment_id row)) = Ok pay /\
          iloc0 (invoices_with_id [Scenario.inv_1] (invoice_id row)) = Ok inv /\
          ((exists r, In r recs /\ r_payment_id r = payment_id row) <->
           Np.lt (Pay.amount pay) (Inv.amount inv) = true) /\
          (forall r, In r recs -> r_payment_id r = payment_id row ->
             r = remaining_record pay inv /\
             remaining_amount r = Np.sub (Inv.amount inv) (Pay.amount pay))) /\
     (forall r, In r recs ->
        exists row,
          In row (final_matches sort_stable
                    (candidates [Scenario.inv_1] [Scenario.pay_short])) /\
          r_payment_id r = payment_id row)) /\
  match_records sort_stable [Scenario.inv_noid] [Scenario.pay_blank] =
    Raise IndexError.
Proof.
  split.
  - apply (proj1 (C3_remainder_iff_underpaid sort_stable sort_stable_perm
                    [Scenario.inv_1] [Scenario.pay_short])).
    vm_compute. reflexivity.
  - apply (proj2 (C3_remainder_iff_underpaid sort_stable sort_stable_perm
                    [Scenario.inv_noid] [Scenario.pay_blank])).
    vm_compute. reflexivity.
Defined.

(** C4 fails as stated.  In scenario B the caller receives the final
    match and two empty frames; the remainder record is in none of them,
    it is written to "out/remaining_payments.csv" by the core, which also
    prints.  Even on empty frames the core prints a message. *)
Lemma C4_counterexample :
  match_records sort_stable [Scenario.inv_2] [Scenario.pay_2 (Some NaN) (Some NaN)] =
    Ok (([Scenario.partial_2], [], []),
        [MakeDirs "out";
         ToCsv "out/remaining_payments.csv" [Scenario.remainder_2];
         Print msg_saved]) /\
  match_records sort_stable [] [] = Ok (([], [], []), [Print msg_none]) /\
  [Print msg_none] <> [].
Proof. repeat split; try (vm_compute; reflexivity). discriminate. Qed.

Lemma C4_witness :
  (exists unmatched_payments unmatched_invoices recs trace,
     match_records sort_stable [Scenario.inv_1; Scenario.inv_10] [Scenario.pay_1] =
       Ok ((final_matches sort_stable
              (candidates [Scenario.inv_1; Scenario.inv_10] [Scenario.pay_1]),
            unmatched_payments, unmatched_invoices), trace) /\
     (forall p, In p unmatched_payments <->
        In p [Scenario.pay_1] /\
        ~ In (Pay.payment_id p)
             (map payment_id
                (final_matches sort_stable
                   (candidates [Scenario.inv_1; Scenario.inv_10] [Scenario.pay_1])))) /\
     (forall i, In i unmatched_invoices <->
        In i [Scenario.inv_1; Scenario.inv_10] /\
        ~ In (Inv.invoice_id i)
             (map invoice_id
                (final_matches sort_stable
                   (candidates [Scenario.inv_1; Scenario.inv_10] [Scenario.pay_1])))) /\
     remaining_records [Scenario.inv_1; Scenario.inv_10] [Scenario.pay_1]
       (final_matches sort_stable
          (candidates [Scenario.inv_1; Scenario.inv_10] [Scenario.pay_1])) = Ok recs /\
     trace = match recs with
             | [] => [Print msg_none]
             | _ => [MakeDirs "out"; ToCsv "out/remaining_payments.csv" recs;
                     Print msg_saved]
             end) /\
  match_records sort_stable [Scenario.inv_noid] [Scenario.pay_blank] =
    Raise IndexError.
Proof.
  split.
  - apply (proj1 (C4_three_frames_and_a_report sort_stable sort_stable_perm
                    [Scenario.inv_1; Scenario.inv_10] [Scenario.pay_1])).
    vm_compute. reflexivity.
  - apply (proj1 (proj2 (C4_three_frames_and_a_report sort_stable sort_stable_perm
                           [Scenario.inv_noid] [Scenario.pay_blank]))).
    vm_compute. reflexivity.
Defined.


(** C9 fails as stated: the rationale of the single final match is the
    text "Partial payment - lower amount", not "name_partial_payment". *)
Lemma C9_counterexample :
  final_matches sort_stable
    (candidates [Scenario.inv_2] [Scenario.pay_2 (Some NaN) (Some NaN)]) =
    [Scenario.partial_2] /\
  rationale Scenario.partial_2 = "Partial payment - lower amount" /\
  rationale Scenario.partial_2 <> "name_partial_payment".
Proof. repeat split; try (vm_compute; reflexivity). discriminate. Qed.

Lemma C9_witness :
  In (Some NaN) Scenario.empty_fields /\
  let inv := Scenario.inv_2 in
  let pay := Scenario.pay_2 (Some NaN) (Some NaN) in
  baseline_normalize_name (Pay.payer_name pay) = "acme pvt ltd" /\
  baseline_normalize_name (Some (Inv.customer_name inv)) = "acme pvt ltd" /\
  Py.lt (Pay.amount pay) (Inv.amount inv) = true /\
  Np.lt (Pay.amount pay) (Inv.amount inv) = true /\
  scan direct_pair [inv] [pay] = [] /\
  scan amount_date_pair [inv] [pay] = [] /\
  scan name_amount_pair [inv] [pay] = [Scenario.partial_2] /\
  confidence Scenario.partial_2 = (5 # 10)%Q /\
  rationale Scenario.partial_2 = "Partial payment - lower amount" /\
  remaining_amount Scenario.remainder_2 = Float (f64_of_Z 20) /\
  match_records sort_stable [inv] [pay] =
    Ok (([Scenario.partial_2], [], []),
        [MakeDirs "out";
         ToCsv "out/remaining_payments.csv" [Scenario.remainder_2];
         Print msg_saved]).
Proof.
  assert (H : In (Some NaN) Scenario.empty_fields) by (simpl; tauto).
  split; [exact H|].
  exact (C9_scenario_B sort_stable sort_stable_perm (Some NaN) (Some NaN) H H).
Defined.

Lemma C10_witness :
  candidates [] [Scenario.pay_1] = [] /\
  match_records sort_stable [] [Scenario.pay_1] =
    Ok (([], [Scenario.pay_1], []), [Print msg_none]).
Proof.
  assert (H : candidates [] [Scenario.pay_1] = []) by reflexivity.
  split; [exact H|].
  exact (proj1 (proj1 (C10_no_candidates sort_stable [] [Scenario.pay_1]) H)).
Defined.
(** * Further properties of the code *)

(** ** Substrings *)

Lemma append_assoc (a b c : string) : (a ++ b) ++ c = a ++ (b ++ c).
Proof. induction a as [|x a IH]; simpl; [reflexivity|]. now rewrite IH. Qed.

Lemma append_empty_r (a : string) : a ++ "" = a.
Proof. induction a as [|x a IH]; simpl; [reflexivity|]. now rewrite IH. Qed.

Lemma length_append (a b : string) :
  String.length (a ++ b) = (String.length a + String.length b)%nat.
Proof. induction a as [|x a IH]; simpl; [reflexivity|]. now rewrite IH. Qed.

Lemma prefix_iff (a s : string) :
  prefix a s = true <-> exists post, s = a ++ post.
Proof.
  revert s. induction a as [|x a IH]; intros s.
  - destruct s; simpl; split; eauto.
  - destruct s as [|y s]; simpl.
    + split; [discriminate|]. intros (post & H). discriminate.
    + destruct (ascii_dec x y) as [->|N].
      * rewrite IH. split; intros (post & H); exists post; congruence.
      * split; [discriminate|]. intros (post & H). congruence.
Qed.

Lemma contains_iff (needle hay : string) :
  PyStr.contains needle hay = true <->
  exists pre post, hay = pre ++ needle ++ post.
Proof.
  split.
  - induction hay as [|c hay IH]; cbn [PyStr.contains]; rewrite orb_true_iff.
    + intros [H|H]; [|discriminate]. apply prefix_iff in H as (post & H).
      now exists "", post.
    + intros [H|H].
      * apply prefix_iff in H as (post & H). now exists "", post.
      * destruct (IH H) as (pre & post & ->). now exists (String c pre), post.
  - intros (pre & post & ->). induction pre as [|c pre IH].
    + assert (H : prefix needle (needle ++ post) = true)
        by (apply prefix_iff; now exists post).
      change ("" ++ needle ++ post) with (needle ++ post).
      destruct (needle ++ post); cbn [PyStr.contains]; now rewrite H.
    + change (String c pre ++ needle ++ post)
        with (String c (pre ++ needle ++ post)).
      cbn [PyStr.contains]. rewrite IH. apply orb_true_r.
Qed.

Lemma contains_trans (a b c : string) :
  PyStr.contains a b = true -> PyStr.contains b c = true ->
  PyStr.contains a c = true.
Proof.
  rewrite !contains_iff. intros (p1 & q1 & ->) (p2 & q2 & ->).
  exists (p2 ++ p1), (q1 ++ q2). now rewrite !append_assoc.
Qed.

Lemma replace_absent (old new s : string) :
  PyStr.contains old s = false -> PyStr.replace old new s = s.
Proof.
  unfold PyStr.replace. induction s as [|c s IH]; [reflexivity|].
  intros H. change (prefix old (String c s) || PyStr.contains old s = false) in H.
  apply orb_false_iff in H as [H1 H2].
  cbn [PyStr.replace_from]. now rewrite H1, IH.
Qed.

(** ** White space around a name *)

Lemma lstrip_pad (a s : string) :
  all_space a = true -> PyStr.lstrip (a ++ s) = PyStr.lstrip s.
Proof.
  induction a as [|c a IH]; simpl; [reflexivity|].
  intros H. apply andb_true_iff in H as [-> H]. now apply IH.
Qed.

Lemma rstrip_all_space (b : string) : all_space b = true -> PyStr.rstrip b = "".
Proof.
  induction b as [|c b IH]; simpl; [reflexivity|].
  intros H. apply andb_true_iff in H as [Hc H]. now rewrite IH, Hc.
Qed.

Lemma rstrip_pad (s b : string) :
  all_space b = true -> PyStr.rstrip (s ++ b) = PyStr.rstrip s.
Proof.
  intros H. induction s as [|c s IH]; simpl; [now apply rstrip_all_space|].
  now rewrite IH.
Qed.

Lemma strip_pad_l (a s : string) :
  all_space a = true -> PyStr.strip (a ++ s) = PyStr.strip s.
Proof.
  unfold PyStr.strip. induction a as [|c a IH]; [reflexivity|].
  intros H. simpl in H. apply andb_true_iff in H as [Hc H].
  specialize (IH H). simpl PyStr.rstrip.
  destruct (PyStr.rstrip (a ++ s)) as [|d r].
  - rewrite Hc. exact IH.
  - cbn [PyStr.lstrip]. rewrite Hc. exact IH.
Qed.

Lemma strip_pad (a s b : string) :
  all_space a = true -> all_space b = true ->
  PyStr.strip (a ++ s ++ b) = PyStr.strip s.
Proof.
  intros Ha Hb. rewrite (strip_pad_l a _ Ha).
  unfold PyStr.strip. now rewrite rstrip_pad.
Qed.

(** ** The name normaliser *)

(** X1. A normalised name has no upper-case letter and no white space at
    either end: [lower] and [strip] leave it unchanged. *)
Theorem normalized_name_is_lower_and_stripped (name : option cell) :
  let n := baseline_normalize_name name in
  PyStr.has_upper n = false /\ PyStr.lower n = n /\ PyStr.strip n = n /\
  PyStr.head_ok n /\ PyStr.last_ok n.
Proof.
  destruct (normalized_shape name) as (Hh & Hl & Hu). cbn zeta.
  split; [exact Hu|]. split; [now apply lower_fix|].
  split; [now apply strip_fix|]. now split.
Qed.

(** X2. White space around a name does not change its normal form. *)
Theorem normalize_ignores_padding (a s b : string) :
  all_space a = true -> all_space b = true ->
  baseline_normalize_name (Some (Str (a ++ s ++ b))) =
  baseline_normalize_name (Some (Str s)).
Proof.
  intros Ha Hb. unfold baseline_normalize_name. now rewrite strip_pad.
Qed.

Lemma normalize_ignores_padding_witness :
  all_space "  " = true /\ all_space " " = true /\
  baseline_normalize_name (Some (Str ("  " ++ "Acme Limited" ++ " "))) =
  baseline_normalize_name (Some (Str "Acme Limited")).
Proof.
  split; [reflexivity|]. split; [reflexivity|].
  apply (normalize_ignores_padding "  " "Acme Limited" " "); reflexivity.
Defined.

Lemma lstrip_suffix (s : string) : exists pre, s = pre ++ PyStr.lstrip s.
Proof.
  induction s as [|c s (pre & IH)]; simpl; [now exists ""|].
  destruct (PyStr.isspace c); [|now exists ""].
  exists (String c pre). simpl. now rewrite <- IH.
Qed.

Lemma rstrip_prefix (s : string) : exists post, s = PyStr.rstrip s ++ post.
Proof.
  induction s as [|c s (post & IH)]; simpl; [now exists ""|].
  destruct (PyStr.rstrip s) as [|d r].
  - destruct (PyStr.isspace c).
    + now exists (String c s).
    + exists post. simpl. now rewrite IH at 1.
  - exists post. simpl. simpl in IH. now rewrite IH at 1.
Qed.

Lemma contains_strip (old s : string) :
  PyStr.contains old s = false -> PyStr.contains old (PyStr.strip s) = false.
Proof.
  intros H. destruct (PyStr.contains old (PyStr.strip s)) eqn:E; [|reflexivity].
  rewrite <- H. symmetry. apply contains_iff.
  apply contains_iff in E as (p & q & E).
  destruct (rstrip_prefix s) as (post & Hs).
  destruct (lstrip_suffix (PyStr.rstrip s)) as (pre & Hr).
  unfold PyStr.strip in E. rewrite E in Hr. rewrite Hr in Hs.
  exists (pre ++ p), (q ++ post). rewrite Hs. now rewrite !append_assoc.
Qed.

(** X4. A name in which none of "Pvt. Ltd", "Limited" and "Ltd." occurs
    is only stripped and put in lower case. *)
Theorem normalize_without_suffix (s : string) :
  PyStr.contains "Pvt. Ltd" s = false ->
  PyStr.contains "Limited" s = false ->
  PyStr.contains "Ltd." s = false ->
  baseline_normalize_name (Some (Str s)) = PyStr.lower (PyStr.strip s).
Proof.
  intros H2 H3 H4. apply contains_strip in H2, H3, H4.
  assert (H1 : PyStr.contains "Private Limited" (PyStr.strip s) = false).
  { destruct (PyStr.contains "Private Limited" (PyStr.strip s)) eqn:E; [|reflexivity].
    rewrite <- H3. symmetry.
    apply (contains_trans "Limited" "Private Limited"); [reflexivity|exact E]. }
  unfold baseline_normalize_name.
  rewrite (replace_absent "Private Limited" _ _ H1).
  rewrite (replace_absent "Pvt. Ltd" _ _ H2).
  rewrite (replace_absent "Limited" _ _ H3).
  now rewrite (replace_absent "Ltd." _ _ H4).
Qed.

Lemma normalize_without_suffix_witness :
  PyStr.contains "Pvt. Ltd" " Globex GmbH" = false /\
  baseline_normalize_name (Some (Str " Globex GmbH")) =
  PyStr.lower (PyStr.strip " Globex GmbH").
Proof.
  split; [reflexivity|].
  apply (normalize_without_suffix " Globex GmbH"); reflexivity.
Defined.

(** ** The three scans, pair by pair *)

(** X5. The direct scan emits a row for a payment id and an invoice id
    exactly when some payment with that id and some invoice with that id
    are such that the invoice id, as text, occurs inside the payment's
    search text, wherever it stands in it. *)
Theorem direct_scan_is_substring_search (invoices : list Inv.t)
    (payments : list Pay.t) (pid iid : cell) :
  In (mkMatch pid iid 1 "Direct invoice_id found in memo/reference")
     (scan direct_pair invoices payments) <->
  exists pay inv pre post,
    In pay payments /\ In inv invoices /\
    Pay.payment_id pay = pid /\ Inv.invoice_id inv = iid /\
    memo_text pay = pre ++ str iid ++ post.
Proof.
  rewrite direct_scan_spec. split.
  - intros (pay & inv & Hp & Hi & C & E). injection E as -> ->.
    apply contains_iff in C as (pre & post & C).
    exists pay, inv, pre, post. repeat split; assumption.
  - intros (pay & inv & pre & post & Hp & Hi & <- & <- & E).
    exists pay, inv. repeat split; try assumption.
    apply contains_iff. now exists pre, post.
Qed.

(** X6. When the id of one invoice occurs inside the id of another, a
    payment that gets a direct-reference candidate for the second gets
    one for the first too. *)
Theorem direct_scan_shorter_id_also_matches (invoices : list Inv.t)
    (payments : list Pay.t) (pay : Pay.t) (a b : Inv.t) :
  In pay payments -> In a invoices ->
  PyStr.contains (str (Inv.invoice_id a)) (str (Inv.invoice_id b)) = true ->
  direct_pair pay b <> None ->
  In (mkMatch (Pay.payment_id pay) (Inv.invoice_id a) 1
        "Direct invoice_id found in memo/reference")
     (candidates invoices payments).
Proof.
  intros Hp Ha Hab Hb. unfold candidates. apply in_or_app. left.
  apply direct_scan_spec. exists pay, a. repeat split; try assumption.
  apply (contains_trans _ (str (Inv.invoice_id b))); [exact Hab|].
  unfold direct_pair in Hb.
  destruct (PyStr.contains (str (Inv.invoice_id b)) (memo_text pay)); [reflexivity|].
  now contradiction Hb.
Qed.

Lemma direct_scan_shorter_id_also_matches_witness :
  PyStr.contains (str (Inv.invoice_id Scenario.inv_1))
    (str (Inv.invoice_id Scenario.inv_10)) = true /\
  In (mkMatch (Str "PAY-1") (Str "INV-1") 1 "Direct invoice_id found in memo/reference")
     (candidates [Scenario.inv_1; Scenario.inv_10] [Scenario.pay_1]).
Proof.
  split; [reflexivity|].
  apply (direct_scan_shorter_id_also_matches
           [Scenario.inv_1; Scenario.inv_10] [Scenario.pay_1]
           Scenario.pay_1 Scenario.inv_1 Scenario.inv_10).
  - simpl. tauto.
  - simpl. tauto.
  - reflexivity.
  - vm_compute. discriminate.
Defined.

(** *** Amounts on which the three tests of the name scan all fail *)

Lemma tolerance_value : tolerance = Float (S754_finite false 5764607523034235 (-59)).
Proof. vm_compute. reflexivity. Qed.

Lemma near_ints (a b : Z) :
  Py.lt (Py.abs (Py.sub (Int a) (Int b))) tolerance = true <-> a = b.
Proof.
  rewrite tolerance_value. cbn [Py.sub Py.abs Py.lt Z_compare_f64 cond_Zopp].
  change (0 <=? -59)%Z with false. cbv iota.
  destruct (Z.compare_spec (Z.abs (a - b) * 2 ^ (- (-59))) 5764607523034235) as [H|H|H].
  - split; [discriminate|]. intros ->. rewrite Z.sub_diag in H. discriminate H.
  - split; [|reflexivity]. intros _.
    change (2 ^ (- (-59)))%Z with 576460752303423488%Z in H. lia.
  - split; [discriminate|]. intros ->. rewrite Z.sub_diag in H. simpl in H. lia.
Qed.

Lemma SFcompare_swap (f g : f64) :
  SFcompare f g = Some Gt -> SFcompare g f = Some Lt.
Proof.
  assert (A : forall m n : positive,
            Pos.compare_cont Eq n m = CompOpp (Pos.compare_cont Eq m n))
    by (intros m n; apply (eq_sym (Pos.compare_cont_antisym m n Eq))).
  destruct f as [sf|sf| |sf mf ef], g as [sg|sg| |sg mg eg]; simpl;
    try discriminate; try (destruct sf; discriminate || reflexivity);
    try (destruct sg; discriminate || reflexivity);
    try (destruct sf, sg; discriminate || reflexivity).
  rewrite (Z.compare_antisym ef eg), (A mf mg).
  destruct sf, sg; try discriminate; try reflexivity;
    destruct (ef ?= eg)%Z; simpl; try discriminate; try reflexivity;
    destruct (Pos.compare_cont Eq mf mg); simpl; discriminate || reflexivity.
Qed.

Lemma f64_sub_diag (s : bool) (m : positive) (e : Z) :
  f64_sub (S754_finite s m e) (S754_finite s m e) = S754_zero false.
Proof.
  unfold f64_sub, SFsub. rewrite Z.sub_diag. reflexivity.
Qed.

Lemma SFcompare_Eq_finite (sf sg : bool) (mf mg : positive) (ef eg : Z) :
  SFcompare (S754_finite sf mf ef) (S754_finite sg mg eg) = Some Eq ->
  sf = sg /\ ef = eg /\ mf = mg.
Proof.
  simpl. destruct sf, sg; try discriminate;
    destruct (Z.compare_spec ef eg) as [Ee|Ee|Ee]; try discriminate;
    destruct (Pos.compare_cont Eq mf mg) eqn:Em; try discriminate;
    apply Pcompare_Eq_eq in Em; now subst.
Qed.

Lemma SFcompare_Eq_near (f g : f64) :
  SFcompare f g = Some Eq ->
  (exists s, f = S754_infinity s /\ g = S754_infinity s) \/
  Py.lt (Py.abs (Py.sub (Float f) (Float g))) tolerance = true.
Proof.
  rewrite tolerance_value.
  destruct f as [sf|sf| |sf mf ef], g as [sg|sg| |sg mg eg];
    try (simpl; discriminate); try (simpl; destruct sf; discriminate);
    try (simpl; destruct sg; discriminate).
  - intros _. right. now destruct sf, sg.
  - simpl. destruct sf, sg; try discriminate; intros _; left; eauto.
  - intros H. apply SFcompare_Eq_finite in H as (-> & -> & ->). right.
    cbn [Py.sub Py.abs Py.lt]. now rewrite f64_sub_diag.
Qed.

(** Two amounts of the same kind: two integers or two floats. *)
Lemma same_kind_decided (a b : num) :
  same_kind a b ->
  Py.lt (Py.abs (Py.sub a b)) tolerance = false ->
  Py.lt a b = false -> Py.gt a b = false ->
  undecided a b.
Proof.
  destruct a as [x|f], b as [y|g]; simpl same_kind; try contradiction; intros _.
  - intros N L G. exfalso. unfold Py.gt in G. simpl in L, G.
    apply Z.ltb_ge in L, G. assert (x = y) by lia.
    apply near_ints in H. congruence.
  - intros N L G. unfold Py.gt in G. simpl in L, G. unfold f64_lt, SFltb in L, G.
    destruct (SFcompare f g) as [[| |]|] eqn:C.
    + destruct (SFcompare_Eq_near f g C) as [(s & -> & ->)|H]; [|congruence].
      right. right. now exists s.
    + discriminate.
    + rewrite (SFcompare_swap f g C) in G. discriminate.
    + unfold undecided. destruct f, g; simpl in C; try discriminate; auto;
        try (destruct s; discriminate); try (destruct s0; discriminate).
Qed.

Lemma undecided_silent (pay : Pay.t) (inv : Inv.t) :
  undecided (Pay.amount pay) (Inv.amount inv) -> name_amount_pair pay inv = None.
Proof.
  intros [H|[H|(s & Ha & Hb)]]; [apply name_amount_pair_null; now left
                                |apply name_amount_pair_null; now right|].
  unfold name_amount_pair. cbn zeta. rewrite Ha, Hb.
  destruct (String.eqb _ _); [|reflexivity]. now destruct s.
Qed.

Lemma name_amount_pair_none (pay : Pay.t) (inv : Inv.t) :
  baseline_normalize_name (Pay.payer_name pay) =
  baseline_normalize_name (Some (Inv.customer_name inv)) ->
  same_kind (Pay.amount pay) (Inv.amount inv) ->
  name_amount_pair pay inv = None ->
  undecided (Pay.amount pay) (Inv.amount inv).
Proof.
  intros E K. unfold name_amount_pair. cbn zeta. rewrite E, String.eqb_refl.
  destruct (Py.lt (Py.abs (Py.sub (Pay.amount pay) (Inv.amount inv))) tolerance)
    eqn:N; [discriminate|].
  destruct (Py.lt (Pay.amount pay) (Inv.amount inv)) eqn:L; [discriminate|].
  destruct (Py.gt (Pay.amount pay) (Inv.amount inv)) eqn:G; [discriminate|].
  intros _. now apply same_kind_decided.
Qed.

(** X7. For two amounts of the same kind, the name scan is silent on a
    pair exactly when the two normalised names differ, or one amount is
    NaN, or both are the same infinity: in every other case one of the
    three branches is taken.  (NaN and equal infinities silence it
    whatever the kinds.) *)
Theorem name_scan_silent_iff (pay : Pay.t) (inv : Inv.t) :
  same_kind (Pay.amount pay) (Inv.amount inv) ->
  (name_amount_pair pay inv = None <->
   baseline_normalize_name (Pay.payer_name pay) <>
   baseline_normalize_name (Some (Inv.customer_name inv)) \/
   undecided (Pay.amount pay) (Inv.amount inv)) /\
  (undecided (Pay.amount pay) (Inv.amount inv) -> name_amount_pair pay inv = None).
Proof.
  intros K. split; [|apply undecided_silent]. split.
  - intros H.
    destruct (string_dec (baseline_normalize_name (Pay.payer_name pay))
                (baseline_normalize_name (Some (Inv.customer_name inv)))) as [E|E];
      [|now left].
    right. now apply (name_amount_pair_none pay inv).
  - intros [H|H]; [|now apply undecided_silent].
    unfold name_amount_pair. cbn zeta.
    apply String.eqb_neq in H. now rewrite H.
Qed.

Lemma name_scan_silent_iff_witness :
  let pay := Scenario.pay_full in
  let inv := Scenario.inv_a1 in
  same_kind (Pay.amount pay) (Inv.amount inv) /\
  (name_amount_pair pay inv = None <->
   baseline_normalize_name (Pay.payer_name pay) <>
   baseline_normalize_name (Some (Inv.customer_name inv)) \/
   undecided (Pay.amount pay) (Inv.amount inv)).
Proof.
  intros pay inv. assert (K : same_kind (Pay.amount pay) (Inv.amount inv)) by exact I.
  split; [exact K|]. exact (proj1 (name_scan_silent_iff pay inv K)).
Defined.

(** X8. A payment without payer name (absent column or NaN cell) and an
    invoice whose customer name is NaN have equal normalised names: the
    name scan emits a candidate for them whenever the two amounts are of
    the same kind and are neither NaN nor the same infinity. *)
Theorem name_scan_matches_missing_names (pay : Pay.t) (inv : Inv.t) :
  Pay.payer_name pay = None \/ Pay.payer_name pay = Some NaN ->
  Inv.customer_name inv = NaN ->
  same_kind (Pay.amount pay) (Inv.amount inv) ->
  ~ undecided (Pay.amount pay) (Inv.amount inv) ->
  exists m,
    name_amount_pair pay inv = Some m /\
    payment_id m = Pay.payment_id pay /\ invoice_id m = Inv.invoice_id inv.
Proof.
  intros Hp Hi K U.
  assert (En : baseline_normalize_name (Pay.payer_name pay) =
               baseline_normalize_name (Some (Inv.customer_name inv)))
    by (rewrite Hi; destruct Hp as [-> | ->]; reflexivity).
  destruct (name_amount_pair pay inv) as [m|] eqn:E.
  - exists m. split; [reflexivity|]. now apply name_amount_pair_ids.
  - exfalso. apply U. now apply (name_amount_pair_none pay inv).
Qed.

Lemma name_scan_matches_missing_names_witness :
  let pay := Pay.mk (Str "PAY-4") None None None (Int 10) (Str "USD") None in
  let inv := Inv.mk (Str "INV-4") NaN (Int 99) (Str "EUR") None in
  exists m,
    name_amount_pair pay inv = Some m /\
    payment_id m = Str "PAY-4" /\ invoice_id m = Str "INV-4".
Proof.
  intros pay inv.
  apply (name_scan_matches_missing_names pay inv);
    [left; reflexivity|reflexivity|exact I|].
  intros [H|[H|(s & H & _)]]; discriminate H.
Defined.

(** X9. The amount/date scan emits its row for a pair exactly when both
    currencies are the same string, both dates are present, the payment
    is dated from 7 whole days before the invoice to less than 8 whole
    days after it (the day count of the difference is rounded down), and
    the amounts pass the 0.01 test; for two integer amounts that test is
    equality. *)
Theorem amount_date_pair_iff (pay : Pay.t) (inv : Inv.t) :
  (amount_date_pair pay inv =
     Some (mkMatch (Pay.payment_id pay) (Inv.invoice_id inv) (8 # 10)
             "Exact amount and near-date (±7 days)") <->
   exists c d e,
     Inv.currency inv = Str c /\ Pay.currency pay = Str c /\
     Pay.date pay = Some d /\ Inv.date inv = Some e /\
     (- 7 * ns_per_day <= d - e < 8 * ns_per_day)%Z /\
     Py.lt (Py.abs (Py.sub (Inv.amount inv) (Pay.amount pay))) tolerance = true) /\
  (forall a b : Z,
     Py.lt (Py.abs (Py.sub (Int a) (Int b))) tolerance = true <-> a = b).
Proof.
  split; [|apply near_ints].
  assert (W : forall d e : Z,
            (Z.abs ((d - e) / ns_per_day) <=? window_days)%Z = true <->
            (- 7 * ns_per_day <= d - e < 8 * ns_per_day)%Z).
  { intros d e. rewrite Z.leb_le. unfold window_days, ns_per_day.
    pose proof (Z.div_mod (d - e) 86400000000000 ltac:(lia)) as DM.
    pose proof (Z.mod_pos_bound (d - e) 86400000000000 ltac:(lia)) as MB.
    lia. }
  unfold amount_date_pair. split.
  - destruct (cell_eqb _ _) eqn:C; [|discriminate].
    destruct (abs_days_le _ _) eqn:D; [|discriminate].
    destruct (Py.lt _ _) eqn:A; [|discriminate]. intros _.
    destruct (Inv.currency inv) as [c|]; [|discriminate].
    destruct (Pay.currency pay) as [c'|]; [|discriminate].
    simpl in C. apply String.eqb_eq in C. subst c'.
    destruct (Pay.date pay) as [d|]; [|discriminate].
    destruct (Inv.date inv) as [e|]; [|discriminate].
    simpl in D. apply W in D.
    exists c, d, e. repeat split; try assumption; apply D.
  - intros (c & d & e & -> & -> & -> & -> & D & A).
    apply W in D. unfold cell_eqb, days_between, abs_days_le.
    now rewrite String.eqb_refl, D, A.
Qed.

(** ** The aggregator *)

Lemma candidate_label (invoices : list Inv.t) (payments : list Pay.t) (m : Match) :
  In m (candidates invoices payments) -> In (label_of m) code_labels.
Proof.
  unfold candidates. rewrite !in_app_iff, !scan_In.
  intros [H|[H|H]]; destruct H as (pay & inv & _ & _ & H).
  - apply direct_pair_label in H. rewrite H. simpl. tauto.
  - apply amount_date_pair_label in H. rewrite H. simpl. tauto.
  - apply name_amount_pair_label in H. cbn zeta in H.
    destruct H as [(_ & ->)|[(_ & _ & ->)|(_ & _ & _ & ->)]]; simpl; tauto.
Qed.

Lemma drop_duplicates_from_fix (seen : list cell) (rows : list Match) :
  NoDup (map payment_id rows) ->
  (forall m, In m rows -> ~ In (payment_id m) seen) ->
  drop_duplicates_from seen rows = rows.
Proof.
  revert seen. induction rows as [|r rows IH]; intros seen ND Hs; [reflexivity|].
  simpl. inversion ND as [|? ? Hr ND']; subst.
  destruct (isin (payment_id r) seen) eqn:E.
  - apply isin_In in E. exfalso. apply (Hs r); [now left|exact E].
  - f_equal. apply IH; [exact ND'|].
    intros m Hm [H|H].
    + apply Hr. rewrite H. now apply in_map.
    + apply (Hs m); [now right|exact H].
Qed.

(** X10. [drop_duplicates] leaves a frame whose payment ids are pairwise
    distinct as it is; applying it twice is the same as applying it
    once. *)
Theorem drop_duplicates_idempotent (rows : list Match) :
  drop_duplicates (drop_duplicates rows) = drop_duplicates rows /\
  (NoDup (map payment_id rows) -> drop_duplicates rows = rows).
Proof.
  assert (F : forall l, NoDup (map payment_id l) -> drop_duplicates l = l)
    by (intros l ND; apply drop_duplicates_from_fix; [exact ND|intros m _ []]).
  split; [|apply F]. apply F, drop_duplicates_from_NoDup.
Qed.

Lemma drop_duplicates_from_sorted (R : Match -> Match -> Prop)
    (seen : list cell) (rows : list Match) :
  StronglySorted R rows -> StronglySorted R (drop_duplicates_from seen rows).
Proof.
  intros H. revert seen. induction H as [|r rows Hs IH Hr]; intros seen; simpl.
  - constructor.
  - destruct (isin (payment_id r) seen); [apply IH|].
    constructor; [apply IH|]. apply Forall_forall. intros m Hm.
    apply drop_duplicates_from_In in Hm as [Hm _].
    now apply (proj1 (Forall_forall _ _) Hr).
Qed.

Section AggregatorOrder.

Variable sort_values : list Match -> list Match.
Hypothesis sort_perm : forall rows, Permutation rows (sort_values rows).
Hypothesis sort_desc : forall rows, Sorted conf_ge (sort_values rows).

(** The row retained for a payment id that has a candidate: one of its
    candidates, of the greatest confidence among them. *)
Lemma retained_is_max (matches : list Match) (p : cell) :
  In p (map payment_id matches) ->
  exists m,
    retained (final_matches sort_values matches) p = Some m /\
    In m (final_matches sort_values matches) /\
    In m matches /\ payment_id m = p /\
    (forall c, In c matches -> payment_id c = p ->
       (confidence c <= confidence m)%Q).
Proof.
  intros Hp.
  assert (Hp' : In p (map payment_id (sort_values matches)))
    by now apply (Permutation_in _ (Permutation_map payment_id (sort_perm matches))).
  destruct (find_has_pid _ _ Hp') as (m & F).
  pose proof (final_matches_retained sort_values sort_perm matches p) as R.
  unfold retained in R |- *. exists m. rewrite R. split; [exact F|].
  assert (Hf : In m (final_matches sort_values matches))
    by (rewrite <- R in F; now apply find_some in F).
  pose proof (find_some _ _ F) as [Hm Hpid]. apply cell_same_eq in Hpid.
  split; [exact Hf|].
  split; [now apply (final_matches_In sort_values sort_perm)|].
  split; [exact Hpid|]. intros c Hc Ec.
  assert (SS : StronglySorted conf_ge (sort_values matches))
    by (apply Sorted_StronglySorted; [exact conf_ge_trans|apply sort_desc]).
  destruct (find_sorted_max conf_ge (has_pid p) _ m SS F c) as [->|H].
  - now apply (Permutation_in _ (sort_perm matches)).
  - unfold has_pid. rewrite Ec. apply cell_same_refl.
  - apply Qle_refl.
  - exact H.
Qed.

(** X11. The final match frame comes out in descending order of
    confidence: every row has a confidence at least that of each row
    after it. *)
Theorem final_matches_descending (matches : list Match) :
  StronglySorted conf_ge (final_matches sort_values matches).
Proof.
  rewrite (final_matches_unfold sort_values sort_perm).
  apply drop_duplicates_from_sorted.
  apply Sorted_StronglySorted; [exact conf_ge_trans|apply sort_desc].
Qed.

(** X12. Precedence of the scans.  A payment that has a direct-reference
    candidate ends with a final match of confidence 1.0 and the direct
    rationale; a payment that has an amount/date candidate ends with a
    direct or an amount/date match, never with a name-based one. *)
Theorem scan_precedence (invoices : list Inv.t) (payments : list Pay.t)
    (p : cell) :
  In p (map payment_id (candidates invoices payments)) ->
  exists m,
    retained (final_matches sort_values (candidates invoices payments)) p = Some m /\
    (In p (map payment_id (scan direct_pair invoices payments)) ->
     label_of m = (1%Q, "Direct invoice_id found in memo/reference")) /\
    (In p (map payment_id (scan amount_date_pair invoices payments)) ->
     label_of m = (1%Q, "Direct invoice_id found in memo/reference") \/
     label_of m = ((8 # 10)%Q, "Exact amount and near-date (±7 days)")).
Proof.
  intros Hp. destruct (retained_is_max _ p Hp) as (m & R & _ & Hm & _ & Max).
  exists m. split; [exact R|].
  pose proof (candidate_label _ _ m Hm) as L.
  assert (Q1 : forall q : Q, (1 <= q)%Q -> In (q, rationale m) code_labels ->
               (q, rationale m) = (1%Q, "Direct invoice_id found in memo/reference")).
  { intros q Hq H. simpl in H.
    destruct H as [H|[H|[H|[H|[H|[]]]]]]; injection H as H1 H2;
      rewrite <- H1 in Hq; try (exfalso; revert Hq; now apply Qlt_not_le).
    now rewrite <- H1, <- H2. }
  split.
  - intros Hd. apply in_map_iff in Hd as (c & Ec & Hc).
    assert (Hc' : In c (candidates invoices payments))
      by (unfold candidates; apply in_or_app; now left).
    pose proof (Max c Hc' Ec) as Hle.
    apply scan_In in Hc as (pay & inv & _ & _ & Hc).
    apply direct_pair_label in Hc. injection Hc as Hc _. rewrite Hc in Hle.
    unfold label_of in *. now apply Q1.
  - intros Ha. apply in_map_iff in Ha as (c & Ec & Hc).
    assert (Hc' : In c (candidates invoices payments))
      by (unfold candidates; apply in_or_app; right; apply in_or_app; now left).
    pose proof (Max c Hc' Ec) as Hle.
    apply scan_In in Hc as (pay & inv & _ & _ & Hc).
    apply amount_date_pair_label in Hc. injection Hc as Hc _. rewrite Hc in Hle.
    unfold label_of in *. simpl in L.
    destruct L as [H|[H|[H|[H|[H|[]]]]]]; injection H as H1 H2;
      rewrite <- H1 in Hle; try (exfalso; revert Hle; now apply Qlt_not_le).
    + left. now rewrite <- H1, <- H2.
    + right. now rewrite <- H1, <- H2.
Qed.

End AggregatorOrder.

(** X13. The choice of the sort matters for ties only.  Two sorts that
    both permute the rows into descending order retain, for a payment id
    that has a candidate, rows of equal confidence; they retain the same
    row when the payment has a single candidate of that confidence.  The
    two final frames hold the same payment ids and have the same size. *)
Theorem sorts_differ_on_ties_only
    (sort1 sort2 : list Match -> list Match) (matches : list Match) (p : cell) :
  (forall rows, Permutation rows (sort1 rows)) ->
  (forall rows, Sorted conf_ge (sort1 rows)) ->
  (forall rows, Permutation rows (sort2 rows)) ->
  (forall rows, Sorted conf_ge (sort2 rows)) ->
  In p (map payment_id matches) ->
  exists m1 m2,
    retained (final_matches sort1 matches) p = Some m1 /\
    retained (final_matches sort2 matches) p = Some m2 /\
    (confidence m1 == confidence m2)%Q /\
    ((forall c, In c matches -> payment_id c = p ->
        (confidence c == confidence m1)%Q -> c = m1) ->
     m1 = m2) /\
    (forall q, In q (map payment_id (final_matches sort1 matches)) <->
               In q (map payment_id (final_matches sort2 matches))) /\
    List.length (final_matches sort1 matches) =
    List.length (final_matches sort2 matches).
Proof.
  intros P1 D1 P2 D2 Hp.
  destruct (retained_is_max sort1 P1 D1 matches p Hp) as (m1 & R1 & _ & H1 & E1 & M1).
  destruct (retained_is_max sort2 P2 D2 matches p Hp) as (m2 & R2 & _ & H2 & E2 & M2).
  exists m1, m2. split; [exact R1|]. split; [exact R2|].
  assert (E : (confidence m1 == confidence m2)%Q)
    by (apply Qle_antisym; [now apply M2|now apply M1]).
  split; [exact E|].
  split; [intros U; symmetry; apply U; [exact H2|exact E2|now symmetry]|].
  assert (I : forall q, In q (map payment_id (final_matches sort1 matches)) <->
                        In q (map payment_id (final_matches sort2 matches))).
  { intros q. rewrite (final_matches_ids sort1 P1), (final_matches_ids sort2 P2).
    reflexivity. }
  split; [exact I|].
  rewrite <- (List.length_map payment_id (final_matches sort1 matches)).
  rewrite <- (List.length_map payment_id (final_matches sort2 matches)).
  apply Permutation_length, NoDup_Permutation;
    [now apply final_matches_NoDup|now apply final_matches_NoDup|exact I].
Qed.

Lemma sorts_differ_on_ties_only_witness :
  let matches := candidates [Scenario.inv_1] [Scenario.pay_short] in
  In (Str "PAY-7") (map payment_id matches) /\
  exists m1 m2,
    retained (final_matches sort_stable matches) (Str "PAY-7") = Some m1 /\
    retained (final_matches sort_reversing matches) (Str "PAY-7") = Some m2 /\
    (confidence m1 == confidence m2)%Q /\
    ((forall c, In c matches -> payment_id c = Str "PAY-7" ->
        (confidence c == confidence m1)%Q -> c = m1) ->
     m1 = m2) /\
    (forall q, In q (map payment_id (final_matches sort_stable matches)) <->
               In q (map payment_id (final_matches sort_reversing matches))) /\
    List.length (final_matches sort_stable matches) =
    List.length (final_matches sort_reversing matches).
Proof.
  intros matches.
  assert (H : In (Str "PAY-7") (map payment_id matches)) by (vm_compute; tauto).
  split; [exact H|].
  exact (sorts_differ_on_ties_only sort_stable sort_reversing matches (Str "PAY-7")
           sort_stable_perm sort_stable_desc
           sort_reversing_perm sort_reversing_desc H).
Defined.

Lemma final_matches_descending_witness :
  StronglySorted conf_ge
    (final_matches sort_reversing
       (candidates [Scenario.inv_1; Scenario.inv_10]
          [Scenario.pay_1; Scenario.pay_short])).
Proof.
  exact (final_matches_descending sort_reversing sort_reversing_perm
           sort_reversing_desc _).
Defined.

Lemma scan_precedence_witness :
  In (Str "PAY-7") (map payment_id (candidates [Scenario.inv_1] [Scenario.pay_short])) /\
  exists m,
    retained (final_matches sort_stable
                (candidates [Scenario.inv_1] [Scenario.pay_short])) (Str "PAY-7") = Some m /\
    (In (Str "PAY-7")
        (map payment_id (scan direct_pair [Scenario.inv_1] [Scenario.pay_short])) ->
     label_of m = (1%Q, "Direct invoice_id found in memo/reference")) /\
    (In (Str "PAY-7")
        (map payment_id (scan amount_date_pair [Scenario.inv_1] [Scenario.pay_short])) ->
     label_of m = (1%Q, "Direct invoice_id found in memo/reference") \/
     label_of m = ((8 # 10)%Q, "Exact amount and near-date (±7 days)")).
Proof.
  assert (H : In (Str "PAY-7")
                (map payment_id (candidates [Scenario.inv_1] [Scenario.pay_short])))
    by (vm_compute; tauto).
  split; [exact H|].
  exact (scan_precedence sort_stable sort_stable_perm sort_stable_desc
           [Scenario.inv_1] [Scenario.pay_short] (Str "PAY-7") H).
Defined.

(** ** The frames returned by the core *)

Lemma unique_In (x : cell) (ids : list cell) : In x (unique ids) <-> In x ids.
Proof.
  induction ids as [|y l IH]; simpl; [reflexivity|].
  destruct (isin y l) eqn:E.
  - rewrite IH. split; [now right|]. intros [<-|H]; [now apply isin_In|exact H].
  - simpl. now rewrite IH.
Qed.

Lemma unique_NoDup (ids : list cell) : NoDup (unique ids).
Proof.
  induction ids as [|y l IH]; simpl; [constructor|].
  destruct (isin y l) eqn:E; [exact IH|].
  constructor; [|exact IH]. rewrite unique_In, <- isin_In. congruence.
Qed.

Lemma unique_fix (ids : list cell) : NoDup ids -> unique ids = ids.
Proof.
  induction 1 as [|y l Hy ND IH]; simpl; [reflexivity|].
  destruct (isin y l) eqn:E; [now apply isin_In in E|]. now rewrite IH.
Qed.

Lemma filter_isin_length {A : Type} (f : A -> cell) (ids : list cell) (l : list A) :
  NoDup ids -> NoDup (map f l) -> incl ids (map f l) ->
  List.length (filter (fun x => isin (f x) ids) l) = List.length ids.
Proof.
  intros Hi Hl Hincl.
  rewrite <- (List.length_map f (filter _ l)).
  apply Permutation_length, NoDup_Permutation; [|exact Hi|].
  - clear Hincl. induction l as [|x l IH]; simpl; [constructor|].
    inversion Hl as [|? ? Hx Hl']; subst.
    destruct (isin (f x) ids); [|now apply IH].
    simpl. constructor; [|now apply IH].
    intros H. apply Hx. apply in_map_iff in H as (y & E & Hy).
    apply filter_In in Hy as [Hy _]. rewrite <- E. now apply in_map.
  - intros y. rewrite in_map_iff. split.
    + intros (x & <- & Hx). apply filter_In in Hx as [_ Hx]. now apply isin_In.
    + intros Hy. pose proof (Hincl y Hy) as H.
      apply in_map_iff in H as (x & <- & Hx). exists x. split; [reflexivity|].
      apply filter_In. split; [exact Hx|]. now apply isin_In.
Qed.

Lemma filter_not_isin_length {A : Type} (f : A -> cell) (ids : list cell)
    (l : list A) :
  NoDup (map f l) -> incl ids (map f l) ->
  (List.length (unique ids) +
   List.length (filter (fun x => negb (isin (f x) ids)) l) = List.length l)%nat.
Proof.
  intros Hl Hincl.
  rewrite <- (filter_length (fun x => isin (f x) ids) l). f_equal.
  rewrite <- (filter_isin_length f (unique ids) l).
  - apply f_equal, filter_ext. intros x.
    destruct (isin (f x) ids) eqn:E.
    + apply isin_In. apply unique_In. now apply isin_In.
    + apply not_true_iff_false. intros H.
      rewrite isin_In, unique_In, <- isin_In in H. congruence.
  - apply unique_NoDup.
  - exact Hl.
  - intros y Hy. apply Hincl. now apply (proj1 (unique_In y ids)).
Qed.

Lemma remaining_records_ids (invoices : list Inv.t) (payments : list Pay.t)
    (rows : list Match) (recs : list Remainder) :
  remaining_records invoices payments rows = Ok recs ->
  NoDup (map payment_id rows) ->
  NoDup (map r_payment_id recs) /\
  incl (map r_payment_id recs) (map payment_id rows) /\
  (List.length recs <= List.length rows)%nat.
Proof.
  revert recs. induction rows as [|row rows IH]; intros recs.
  - intros [= <-] _. split; [constructor|]. split; [intros x []|simpl; lia].
  - cbn [remaining_records].
    destruct (iloc0 (payments_with_id payments (payment_id row))) as [pay|] eqn:Ep;
      [|discriminate].
    destruct (iloc0 (invoices_with_id invoices (invoice_id row))) as [inv|] eqn:Ei;
      [|discriminate].
    destruct (remaining_records invoices payments rows) as [recs'|]; [|discriminate].
    cbn [bind]. intros [= <-] ND. inversion ND as [|? ? Hrow ND']; subst.
    destruct (IH recs' eq_refl ND') as (N & I & L).
    apply iloc0_payment_id in Ep as [_ Ep].
    destruct (Np.lt (Pay.amount pay) (Inv.amount inv)).
    + simpl. rewrite Ep. split; [|split].
      * constructor; [|exact N]. intros H. apply Hrow. now apply I.
      * intros x [<-|H]; [now left|right; now apply I].
      * lia.
    + split; [exact N|]. split; [|simpl; lia].
      intros x H. right. now apply I.
Qed.

(** What the subtraction of two int64 values stores. *)
Lemma wrap64_sub (a b : Z) :
  (a < b)%Z ->
  ((b - a < 2 ^ 63)%Z -> Np.wrap64 (b - a) = (b - a)%Z) /\
  ((2 ^ 63 <= b - a < 2 ^ 64)%Z ->
   Np.wrap64 (b - a) = (b - a - 2 ^ 64)%Z /\ (Np.wrap64 (b - a) < 0)%Z).
Proof.
  intros L. unfold Np.wrap64.
  change (2 ^ 63)%Z with 9223372036854775808%Z.
  change (2 ^ 64)%Z with 18446744073709551616%Z.
  pose proof (Z.div_mod (b - a + 9223372036854775808) 18446744073709551616
                ltac:(lia)) as DM.
  pose proof (Z.mod_pos_bound (b - a + 9223372036854775808) 18446744073709551616
                ltac:(lia)) as MB.
  split; intros H; lia.
Qed.

Section ReturnedFrames.

Variable sort_values : list Match -> list Match.
Hypothesis sort_perm : forall rows, Permutation rows (sort_values rows).

Lemma final_payment_ids_incl (invoices : list Inv.t) (payments : list Pay.t) :
  incl (map payment_id (final_matches sort_values (candidates invoices payments)))
       (map Pay.payment_id payments).
Proof.
  intros x H. apply in_map_iff in H as (m & <- & Hm).
  pose proof (proj1 (Forall_forall _ _)
                (final_matches_known sort_values sort_perm invoices payments) m Hm)
    as (pay & inv & Hp & _ & E & _).
  rewrite E. now apply in_map.
Qed.

Lemma final_invoice_ids_incl (invoices : list Inv.t) (payments : list Pay.t) :
  incl (map invoice_id (final_matches sort_values (candidates invoices payments)))
       (map Inv.invoice_id invoices).
Proof.
  intros x H. apply in_map_iff in H as (m & <- & Hm).
  pose proof (proj1 (Forall_forall _ _)
                (final_matches_known sort_values sort_perm invoices payments) m Hm)
    as (pay & inv & _ & Hi & _ & E).
  rewrite E. now apply in_map.
Qed.

(** X14. When every final match carries two ids, so that the core
    returns: a payment is returned as unmatched exactly when no scan
    emitted a candidate for its payment id; every other payment has a
    final match. *)
Theorem unmatched_payment_iff_no_candidate (invoices : list Inv.t)
    (payments : list Pay.t) :
  let final := final_matches sort_values (candidates invoices payments) in
  existsb has_nan_id final = false ->
  exists unmatched_payments unmatched_invoices trace,
    match_records sort_values invoices payments =
      Ok ((final, unmatched_payments, unmatched_invoices), trace) /\
    (forall p, In p unmatched_payments <->
       In p payments /\
       ~ In (Pay.payment_id p) (map payment_id (candidates invoices payments))) /\
    (forall p, In p payments -> ~ In p unmatched_payments ->
       exists m, In m final /\ payment_id m = Pay.payment_id p).
Proof.
  intros final Hn.
  destruct (proj1 (match_records_cases sort_values sort_perm invoices payments) Hn)
    as (recs & _ & M). fold final in M.
  do 3 eexists. split; [exact M|].
  assert (U : forall p,
            In p (filter (fun p => negb (isin (Pay.payment_id p)
                                           (map payment_id final))) payments) <->
            In p payments /\
            ~ In (Pay.payment_id p) (map payment_id (candidates invoices payments))).
  { intros p. rewrite filter_In, negb_true_iff, <- not_true_iff_false, isin_In.
    unfold final. now rewrite (final_matches_ids sort_values sort_perm). }
  split; [exact U|]. intros p Hp Hx.
  destruct (in_dec cell_eq_dec (Pay.payment_id p)
              (map payment_id (candidates invoices payments))) as [H|H].
  - apply (final_matches_ids sort_values sort_perm) in H.
    apply in_map_iff in H as (m & E & Hm). now exists m.
  - exfalso. apply Hx, U. now split.
Qed.

(** X15. When the payment ids of the payments frame are pairwise
    distinct and every final match carries two ids, the final matches
    and the unmatched payments account for every payment: their numbers
    add up to the number of payments. *)
Theorem matches_plus_unmatched_payments (invoices : list Inv.t)
    (payments : list Pay.t) :
  let final := final_matches sort_values (candidates invoices payments) in
  NoDup (map Pay.payment_id payments) ->
  existsb has_nan_id final = false ->
  exists unmatched_payments unmatched_invoices trace,
    match_records sort_values invoices payments =
      Ok ((final, unmatched_payments, unmatched_invoices), trace) /\
    (List.length final + List.length unmatched_payments =
     List.length payments)%nat.
Proof.
  intros final ND Hn.
  destruct (proj1 (match_records_cases sort_values sort_perm invoices payments) Hn)
    as (recs & _ & M). fold final in M.
  do 3 eexists. split; [exact M|].
  pose proof (filter_not_isin_length Pay.payment_id (map payment_id final)
                payments ND (final_payment_ids_incl invoices payments)) as H.
  rewrite unique_fix in H by apply (final_matches_NoDup sort_values sort_perm).
  now rewrite List.length_map in H.
Qed.

(** X16. When the invoice ids of the invoices frame are pairwise
    distinct and every final match carries two ids, the unmatched
    invoices are all the invoices but one for each distinct invoice id
    of the final matches. *)
Theorem matched_plus_unmatched_invoices (invoices : list Inv.t)
    (payments : list Pay.t) :
  let final := final_matches sort_values (candidates invoices payments) in
  NoDup (map Inv.invoice_id invoices) ->
  existsb has_nan_id final = false ->
  exists unmatched_payments unmatched_invoices trace,
    match_records sort_values invoices payments =
      Ok ((final, unmatched_payments, unmatched_invoices), trace) /\
    (List.length (unique (map invoice_id final)) +
     List.length unmatched_invoices = List.length invoices)%nat /\
    (List.length invoices <= List.length final + List.length unmatched_invoices)%nat.
Proof.
  intros final ND Hn.
  destruct (proj1 (match_records_cases sort_values sort_perm invoices payments) Hn)
    as (recs & _ & M). fold final in M.
  do 3 eexists. split; [exact M|].
  pose proof (filter_not_isin_length Inv.invoice_id (map invoice_id final)
                invoices ND (final_invoice_ids_incl invoices payments)) as H.
  split; [exact H|].
  pose proof (NoDup_incl_length (unique_NoDup (map invoice_id final))
                (fun x Hx => proj1 (unique_In x _) Hx)) as L.
  rewrite List.length_map in L. fold final in L. lia.
Qed.

(** X17. When every final match carries two ids: every remainder record
    that the core writes holds a payment amount that numpy finds below
    the invoice amount, and a remaining amount that is their difference
    as numpy computes it.  For two int64 amounts it is the exact,
    strictly positive difference when that is below 2^63, and the
    difference minus 2^64, a negative number, when it is not.  No two
    records carry the same payment id, and there are at most as many
    records as final matches. *)
Theorem remainder_records_are_underpaid (invoices : list Inv.t)
    (payments : list Pay.t) :
  let final := final_matches sort_values (candidates invoices payments) in
  existsb has_nan_id final = false ->
  exists unmatched_payments unmatched_invoices recs,
    match_records sort_values invoices payments =
      Ok ((final, unmatched_payments, unmatched_invoices), report recs) /\
    (forall r, In r recs ->
       Np.lt (r_payment_amount r) (r_invoice_amount r) = true /\
       remaining_amount r = Np.sub (r_invoice_amount r) (r_payment_amount r) /\
       forall a b, r_payment_amount r = Int a -> r_invoice_amount r = Int b ->
         (a < b)%Z /\
         ((b - a < 2 ^ 63)%Z ->
          remaining_amount r = Int (b - a) /\ (0 < b - a)%Z) /\
         ((2 ^ 63 <= b - a < 2 ^ 64)%Z ->
          remaining_amount r = Int (b - a - 2 ^ 64) /\ (b - a - 2 ^ 64 < 0)%Z)) /\
    NoDup (map r_payment_id recs) /\
    (List.length recs <= List.length final)%nat.
Proof.
  intros final Hn.
  destruct (remaining_records_spec invoices payments final
              (final_matches_known sort_values sort_perm invoices payments) Hn)
    as (recs & E & Hrecs).
  destruct (proj1 (match_records_cases sort_values sort_perm invoices payments) Hn)
    as (recs' & E' & M). fold final in E', M.
  assert (recs' = recs) by congruence. subst recs'.
  do 2 eexists. exists recs. split; [exact M|].
  destruct (remaining_records_ids _ _ _ _ E
              (final_matches_NoDup sort_values sort_perm _)) as (N & _ & L).
  split; [|now split].
  intros r Hr. apply Hrecs in Hr as (row & pay & inv & _ & _ & _ & F & ->).
  unfold remaining_record. cbn [r_payment_amount r_invoice_amount remaining_amount].
  split; [exact F|]. split; [reflexivity|].
  intros a b Ea Eb. rewrite Ea, Eb in F |- *. simpl in F. apply Z.ltb_lt in F.
  destruct (wrap64_sub a b F) as [W1 W2].
  split; [exact F|]. cbn [Np.sub]. split.
  - intros H. rewrite (W1 H). split; [reflexivity|lia].
  - intros H. destruct (W2 H) as [W3 W4]. rewrite W3. split; [reflexivity|lia].
Qed.

End ReturnedFrames.

Lemma unmatched_payment_iff_no_candidate_witness :
  let invoices := [Scenario.inv_1] in
  let payments := [Scenario.pay_short; Scenario.pay_blank] in
  let final := final_matches sort_stable (candidates invoices payments) in
  existsb has_nan_id final = false /\
  exists unmatched_payments unmatched_invoices trace,
    match_records sort_stable invoices payments =
      Ok ((final, unmatched_payments, unmatched_invoices), trace) /\
    (forall p, In p unmatched_payments <->
       In p payments /\
       ~ In (Pay.payment_id p) (map payment_id (candidates invoices payments))) /\
    (forall p, In p payments -> ~ In p unmatched_payments ->
       exists m, In m final /\ payment_id m = Pay.payment_id p).
Proof.
  intros invoices payments final.
  assert (H : existsb has_nan_id final = false) by (vm_compute; reflexivity).
  split; [exact H|].
  exact (unmatched_payment_iff_no_candidate sort_stable sort_stable_perm
           invoices payments H).
Defined.

Lemma matches_plus_unmatched_payments_witness :
  let invoices := [Scenario.inv_1] in
  let payments := [Scenario.pay_short; Scenario.pay_blank] in
  let final := final_matches sort_stable (candidates invoices payments) in
  NoDup (map Pay.payment_id payments) /\
  existsb has_nan_id final = false /\
  exists unmatched_payments unmatched_invoices trace,
    match_records sort_stable invoices payments =
      Ok ((final, unmatched_payments, unmatched_invoices), trace) /\
    (List.length final + List.length unmatched_payments =
     List.length payments)%nat.
Proof.
  intros invoices payments final.
  assert (ND : NoDup (map Pay.payment_id payments)).
  { simpl. constructor; [|constructor; [intros []|constructor]].
    intros [H|[]]. discriminate H. }
  assert (H : existsb has_nan_id final = false) by (vm_compute; reflexivity).
  split; [exact ND|]. split; [exact H|].
  exact (matches_plus_unmatched_payments sort_stable sort_stable_perm
           invoices payments ND H).
Defined.

Lemma matched_plus_unmatched_invoices_witness :
  let invoices := [Scenario.inv_1; Scenario.inv_10] in
  let payments := [Scenario.pay_1; Scenario.pay_short] in
  let final := final_matches sort_stable (candidates invoices payments) in
  NoDup (map Inv.invoice_id invoices) /\
  existsb has_nan_id final = false /\
  exists unmatched_payments unmatched_invoices trace,
    match_records sort_stable invoices payments =
      Ok ((final, unmatched_payments, unmatched_invoices), trace) /\
    (List.length (unique (map invoice_id final)) +
     List.length unmatched_invoices = List.length invoices)%nat /\
    (List.length invoices <= List.length final + List.length unmatched_invoices)%nat.
Proof.
  intros invoices payments final.
  assert (ND : NoDup (map Inv.invoice_id invoices)).
  { simpl. constructor; [|constructor; [intros []|constructor]].
    intros [H|[]]. discriminate H. }
  assert (H : existsb has_nan_id final = false) by (vm_compute; reflexivity).
  split; [exact ND|]. split; [exact H|].
  exact (matched_plus_unmatched_invoices sort_stable sort_stable_perm
           invoices payments ND H).
Defined.

Lemma remainder_records_are_underpaid_witness :
  let invoices := [Scenario.inv_int] in
  let payments := [Scenario.pay_int] in
  let final := final_matches sort_stable (candidates invoices payments) in
  existsb has_nan_id final = false /\
  exists unmatched_payments unmatched_invoices recs,
    match_records sort_stable invoices payments =
      Ok ((final, unmatched_payments, unmatched_invoices), report recs) /\
    (forall r, In r recs ->
       Np.lt (r_payment_amount r) (r_invoice_amount r) = true /\
       remaining_amount r = Np.sub (r_invoice_amount r) (r_payment_amount r) /\
       forall a b, r_payment_amount r = Int a -> r_invoice_amount r = Int b ->
         (a < b)%Z /\
         ((b - a < 2 ^ 63)%Z ->
          remaining_amount r = Int (b - a) /\ (0 < b - a)%Z) /\
         ((2 ^ 63 <= b - a < 2 ^ 64)%Z ->
          remaining_amount r = Int (b - a - 2 ^ 64) /\ (b - a - 2 ^ 64 < 0)%Z)) /\
    NoDup (map r_payment_id recs) /\
    (List.length recs <= List.length final)%nat.
Proof.
  intros invoices payments final.
  assert (H : existsb has_nan_id final = false) by (vm_compute; reflexivity).
  split; [exact H|].
  exact (remainder_records_are_underpaid sort_stable sort_stable_perm
           invoices payments H).
Defined.

(** X18. An invoice whose id is empty, or is a single space, gets a
    direct-reference candidate from every payment: the search text
    always holds the space that joins memo and reference. *)
Theorem blank_invoice_id_matches_every_payment (invoices : list Inv.t)
    (payments : list Pay.t) (pay : Pay.t) (inv : Inv.t) :
  In pay payments -> In inv invoices ->
  Inv.invoice_id inv = Str "" \/ Inv.invoice_id inv = Str " " ->
  In (mkMatch (Pay.payment_id pay) (Inv.invoice_id inv) 1
        "Direct invoice_id found in memo/reference")
     (candidates invoices payments).
Proof.
  intros Hp Hi Hid. unfold candidates. apply in_or_app. left.
  apply direct_scan_spec. exists pay, inv. repeat split; try assumption.
  apply contains_iff. unfold memo_text.
  destruct Hid as [-> | ->].
  - now exists "", (str (get (Pay.memo pay) (Str "")) ++ " " ++
                    str (get (Pay.reference_number pay) (Str ""))).
  - now exists (str (get (Pay.memo pay) (Str ""))),
               (str (get (Pay.reference_number pay) (Str ""))).
Qed.

Lemma blank_invoice_id_matches_every_payment_witness :
  let inv := Inv.mk (Str " ") NaN (Float f64_nan) NaN None in
  In (mkMatch (Str "PAY-9") (Str " ") 1 "Direct invoice_id found in memo/reference")
     (candidates [inv] [Scenario.pay_blank]).
Proof.
  intros inv.
  apply (blank_invoice_id_matches_every_payment [inv] [Scenario.pay_blank]
           Scenario.pay_blank inv); [now left|now left|now right].
Defined.

(** ** Column labels *)

Lemma stripped_lower_shape (label : string) :
  let n := PyStr.lower (PyStr.strip label) in
  PyStr.strip n = n /\ PyStr.lower n = n.
Proof.
  cbn zeta. split.
  - apply strip_fix; [apply head_ok_lower, head_ok_strip
                     |apply last_ok_lower, last_ok_strip].
  - apply lower_fix, has_upper_lower.
Qed.

Lemma rename_canonical (columns : list (string * string)) (n : string) :
  PyStr.strip n = n -> PyStr.lower n = n ->
  (forall kv, In kv columns ->
     PyStr.lower (PyStr.strip (snd kv)) = snd kv /\
     find (fun kv' => String.eqb (fst kv') (snd kv)) columns = None) ->
  let c := rename columns n in
  rename columns (PyStr.lower (PyStr.strip c)) = c /\
  forall kv, In kv columns -> c <> fst kv.
Proof.
  intros S L V. cbn zeta.
  assert (N : find (fun kv => String.eqb (fst kv) (rename columns n)) columns = None).
  { unfold rename.
    destruct (find (fun kv => String.eqb (fst kv) n) columns) as [kv|] eqn:F;
      [|exact F].
    apply find_some in F as [F _]. now apply V. }
  split.
  - revert N. unfold rename.
    destruct (find (fun kv => String.eqb (fst kv) n) columns) as [kv|] eqn:F;
      intros N.
    + apply find_some in F as [F _]. destruct (V kv F) as [E1 E2].
      now rewrite E1, E2.
    + now rewrite S, L, F.
  - intros kv Hkv E. apply (find_none _ _ N) in Hkv.
    rewrite E, String.eqb_refl in Hkv. discriminate.
Qed.

(** X19. Putting a column label in canonical form twice is the same as
    doing it once, for the invoices frame and for the payments frame.
    After it no label is "invoice_amount", "invoice_date",
    "payment_amount" or "payment_date" in the frame they are renamed
    in. *)
Theorem column_labels_canonical (label : string) :
  invoice_column (invoice_column label) = invoice_column label /\
  payment_column (payment_column label) = payment_column label /\
  invoice_column label <> "invoice_amount" /\
  invoice_column label <> "invoice_date" /\
  payment_column label <> "payment_amount" /\
  payment_column label <> "payment_date".
Proof.
  destruct (stripped_lower_shape label) as [S L]. cbn zeta in S, L.
  destruct (rename_canonical
              [("invoice_amount", "amount"); ("invoice_date", "date")] _ S L)
    as [I1 I2].
  { intros kv [<-|[<-|[]]]; now split. }
  destruct (rename_canonical
              [("payment_amount", "amount"); ("payment_date", "date")] _ S L)
    as [P1 P2].
  { intros kv [<-|[<-|[]]]; now split. }
  split; [exact I1|]. split; [exact P1|].
  split; [apply (I2 ("invoice_amount", "amount")); simpl; tauto|].
  split; [apply (I2 ("invoice_date", "date")); simpl; tauto|].
  split; [apply (P2 ("payment_amount", "amount")); simpl; tauto|].
  apply (P2 ("payment_date", "date")); simpl; tauto.
Qed.
